(** * Routing-with-Tket notebook and the Deploy Docs workflow

    A shallow embedding of [docs/qaoa/Routing-with-Tket.ipynb] and of the
    workflow file that follows it.  The notebook is glue code around cirq,
    networkx and pytket: what those libraries return is a parameter of the
    model, what the notebook itself computes from it (the index tables, the
    architecture edges, the decoded maps, the final permutation, the
    assertions and the order of the cells) is defined here. *)

From stdpp Require Import gmap strings list sorting.

Set Default Proof Using "Type".

(** ** Python values the notebook handles *)

(** Indices are Python ints that come out of [enumerate] or out of a tket
    node's index tuple (unsigned on the tket side): natural numbers. *)

(** [cirq.LineQubit]: one attribute, [x]. *)
Module LineQubit.
Record t := mk { x : nat }.

#[global] Instance line_eq_dec : EqDecision t.
Proof. solve_decision. Defined.

#[global] Instance line_countable : Countable t.
Proof. by apply (inj_countable' x mk); intros []. Defined.

(** [cirq.LineQubit.range(start, stop)] *)
Definition range (start stop : nat) : list t :=
  mk <$> seq start (stop - start).
End LineQubit.

(** [cirq.GridQubit]: attributes [row] and [col]; instances compare by the
    key [(row, col)], and [is_adjacent] is Manhattan distance one. *)
Module GridQubit.
Record t := mk { row : Z; col : Z }.

#[global] Instance grid_eq_dec : EqDecision t.
Proof. solve_decision. Defined.

#[global] Instance grid_countable : Countable t.
Proof.
  by apply (inj_countable' (λ q, (row q, col q)) (λ p, mk p.1 p.2)); intros [].
Defined.

Definition lt (p q : t) : Prop :=
  (row p < row q)%Z ∨ (row p = row q ∧ (col p < col q)%Z).

Definition le (p q : t) : Prop :=
  (row p < row q)%Z ∨ (row p = row q ∧ (col p ≤ col q)%Z).

#[global] Instance lt_dec : RelDecision lt.
Proof. intros p q. unfold lt. apply _. Defined.

#[global] Instance le_dec : RelDecision le.
Proof. intros p q. unfold le. apply _. Defined.

Definition is_adjacent (p q : t) : bool :=
  bool_decide ((Z.abs (row p - row q) + Z.abs (col p - col q))%Z = 1%Z).
End GridQubit.

(** ** Python containers *)

(** [enumerate(l)] *)
Definition enumerate {A} (l : list A) : list (nat * A) := imap pair l.

(** A dict comprehension [{k: v for ... }] inserts its items one after the
    other into an empty dict: a later item overwrites an earlier one with
    the same key. *)
Definition dict_of_items `{Countable K} {V} (items : list (K * V)) : gmap K V :=
fold_left (λ m kv, <[kv.1 := kv.2]> m) items ∅.

(** [l.index(v)]: position of the first occurrence, [None] for Python's
    [ValueError]. *)
Fixpoint list_index `{EqDecision A} (v : A) (l : list A) : option nat :=
match l with
| [] => None
| y :: l' => if decide (y = v) then Some 0 else S <$> list_index v l'
end.

(** ** The index tables (cell "Mapping to device indices") *)

(** [index_to_qubit = sorted(device.qubit_set())] *)
Definition index_to_qubit (qubit_set : gset GridQubit.t) : list GridQubit.t :=
merge_sort GridQubit.le (elements qubit_set).

(** [qubit_to_index = {q: i for i, q in enumerate(index_to_qubit)}] *)
Definition qubit_to_index (qubit_set : gset GridQubit.t) : gmap GridQubit.t nat :=
dict_of_items ((λ iq, (iq.2, iq.1)) <$> enumerate (index_to_qubit qubit_set)).

(** ** Exceptions and the two levels of execution *)

(** The four [assert]ions of the notebook, by the cell that holds them:
    [assert valid], [assert len(i) == 1, i] inside [tk_to_i],
    [assert a.is_adjacent(b)] and
    [cirq.testing.assert_allclose_up_to_global_phase]. *)
Inductive Assertion :=
  | AssertValid
  | AssertIndexLen
  | AssertAdjacent
  | AssertAllclose.

Inductive Exn :=
  | AssertionError (site : Assertion)
  | KeyError
  | IndexError
  | ValueError.

#[global] Instance Assertion_eq_dec : EqDecision Assertion.
Proof. solve_decision. Defined.

#[global] Instance Exn_eq_dec : EqDecision Exn.
Proof. solve_decision. Defined.

(** A Python expression or statement either yields a value or raises.  The
    notebook has no [try]: the model has no handler either, so the only
    thing a [Raise] can do is travel outwards through [py_bind]. *)
Inductive Py (A : Type) :=
  | Ok (a : A)
  | Raise (e : Exn).
Arguments Ok {A} a.
Arguments Raise {A} e.

Definition py_bind {A B} (f : A → Py B) (m : Py A) : Py B :=
  match m with
  | Ok a => f a
  | Raise e => Raise e
  end.

#[global] Instance Py_ret : MRet Py := λ A, Ok.
#[global] Instance Py_bind : MBind Py := λ A B, py_bind.

(** [assert cond] *)
Definition py_assert (cond : bool) (site : Assertion) : Py () :=
  if cond then Ok () else Raise (AssertionError site).

(** [l[i]] on a list *)
Definition list_getitem {A} (l : list A) (i : nat) : Py A :=
  match l !! i with
  | Some a => Ok a
  | None => Raise IndexError
  end.

(** [d[k]] on a dict *)
Definition dict_getitem `{Countable K} {V} (d : gmap K V) (k : K) : Py V :=
  match d !! k with
  | Some v => Ok v
  | None => Raise KeyError
  end.

(** [[f(a) for a in l]]: the elements are evaluated in order and the first
    one that raises ends the comprehension. *)
Fixpoint comprehension {A B} (f : A → Py B) (l : list A) : Py (list B) :=
  match l with
  | [] => Ok []
  | a :: l' => b ← f a; bs ← comprehension f l'; mret (b :: bs)
  end.

(** [for a in l: body(a)] *)
Fixpoint for_each {A} (body : A → Py ()) (l : list A) : Py () :=
  match l with
  | [] => Ok ()
  | a :: l' => body a;; for_each body l'
  end.

(** The code cells that bind a name or assert something, in notebook order
    (cells that only import, draw or display a value are left out). *)
Inductive Cell :=
  | CellExampleCircuit
  | CellIndexTables
  | CellTketDevice
  | CellPasses
  | CellInitialMap
  | CellFinalMap
  | CellRoutedCircuit
  | CellAdjacency
  | CellEquivalence.

#[global] Instance Cell_eq_dec : EqDecision Cell.
Proof. solve_decision. Defined.

(** A run of the notebook from the top: the cells entered so far, and the
    value or the exception that ended the run.  A cell that raises is the
    last one entered. *)
Definition Run (A : Type) : Type := list Cell * Py A.

Definition run_bind {A B} (f : A → Run B) (m : Run A) : Run B :=
  match m with
  | (tr, Ok a) => let '(tr', r) := f a in (tr ++ tr', r)
  | (tr, Raise e) => (tr, Raise e)
  end.

#[global] Instance Run_ret : MRet Run := λ A a, ([], Ok a).
#[global] Instance Run_bind : MBind Run := λ A B, run_bind.

Definition cell {A} (c : Cell) (body : Py A) : Run A := ([c], body).

(** ** Circuits *)

(** A gate is opaque to the notebook except for two things: whether it is
    an instance of [cirq.TwoQubitGate] (the test of
    [findall_operations_with_gate_type]), and the permutation gate the last
    cell builds itself. *)
Inductive Gate :=
  | LibraryGate (name : string) (two_qubit_gate : bool)
  | LinearPermutationGate (num_qubits : nat) (permutation : gmap nat nat).

(** [isinstance(gate, cirq.TwoQubitGate)] *)
Definition is_two_qubit_gate (g : Gate) : bool :=
  match g with
  | LibraryGate _ b => b
  | LinearPermutationGate _ _ => false
  end.

Record Operation (Q : Type) := { gate : Gate; qubits : list Q }.
Arguments gate {Q} _.
Arguments qubits {Q} _.

(** A circuit as the list of its operations, in an order that respects
    the moments; the notebook never looks at how operations on disjoint
    qubits are arranged. *)
Definition Circuit (Q : Type) : Type := list (Operation Q).

(** [circuit.findall_operations_with_gate_type(cirq.TwoQubitGate)] *)
Definition findall_two_qubit_operations {Q} (c : Circuit Q) : list (Operation Q) :=
  filter (λ op, is_two_qubit_gate (gate op) = true) c.

(** ** pytket *)

(** A tket [UnitID] ([Qubit] or [Node]): register name and index tuple. *)
Module Node.
Record t := mk { reg_name : string; index : list nat }.

#[global] Instance node_eq_dec : EqDecision t.
Proof. solve_decision. Defined.
End Node.

Definition TkCircuit : Type := Circuit Node.t.

(** [pytket.routing.Architecture(edges)] keeps the list of coupled index
    pairs; [pytket.device.Device({}, {}, arc)] adds nothing to it. *)
Definition Architecture : Type := list (nat * nat).

Definition QubitMap : Type := list (Node.t * Node.t).

(** A [CompilationUnit]: circuit, predicates to check and the two qubit
    maps, the latter as their [items()]. *)
Record CompilationUnit := {
  cu_circuit : TkCircuit;
  cu_predicates : list (TkCircuit → bool);
  cu_initial_map : QubitMap;
  cu_final_map : QubitMap
}.

(** A pass rewrites the circuit and the maps of a unit and leaves its
    predicates alone. *)
Definition Pass : Type := TkCircuit * QubitMap * QubitMap → TkCircuit * QubitMap * QubitMap.

(** [p.apply(unit)] *)
Definition apply_pass (p : Pass) (u : CompilationUnit) : CompilationUnit :=
  let '(c, im, fm) := p (cu_circuit u, cu_initial_map u, cu_final_map u) in
  {| cu_circuit := c; cu_predicates := cu_predicates u;
     cu_initial_map := im; cu_final_map := fm |}.

(** [SequencePass(passes).apply(unit)]: the passes of the list, first to
    last. *)
Definition SequencePass (passes : list Pass) (u : CompilationUnit) : CompilationUnit :=
  fold_left (λ u p, apply_pass p u) passes u.

(** [unit.check_all_predicates()] *)
Definition check_all_predicates (u : CompilationUnit) : bool :=
  forallb (λ p, p (cu_circuit u)) (cu_predicates u).

(** ** What the notebook takes from outside

    The random problem circuit, the device, and the library functions whose
    results the notebook only passes on. *)
Record Libraries := {
  (** [circuit] at the end of the example-circuit cell *)
  circuit : Circuit LineQubit.t;
  (** [device.qubit_set()] for [device = cg.Sycamore23] *)
  device_qubit_set : gset GridQubit.t;
  (** [ccr.xmon_device_to_graph(device).edges] *)
  dev_graph_edges : list (GridQubit.t * GridQubit.t);
  (** [pytket.cirq.cirq_to_tk] and [pytket.cirq.tk_to_cirq] *)
  cirq_to_tk : Circuit LineQubit.t → TkCircuit;
  tk_to_cirq : TkCircuit → Circuit LineQubit.t;
  (** the qubits a fresh [CompilationUnit] maps to themselves *)
  tk_qubits : TkCircuit → list Node.t;
  (** [ConnectivityPredicate(tk_device)] *)
  ConnectivityPredicate : Architecture → TkCircuit → bool;
  (** [PlacementPass(GraphPlacement(tk_device))], [RoutingPass(tk_device)] *)
  PlacementPass : Architecture → Pass;
  RoutingPass : Architecture → Pass;
  (** [expected = circuit.unitary(qubit_order=explicit(circuit_qubits))],
      [actual = rcircuit_with_perm.unitary(qubit_order=explicit(initial_qubits))]
      and whether the two are close up to global phase at [atol=1e-8] *)
  allclose_up_to_global_phase :
    Circuit LineQubit.t → list LineQubit.t →
    Circuit GridQubit.t → list GridQubit.t → bool
}.

(** ** The notebook, cell by cell *)

(** [circuit_qubits = cirq.LineQubit.range(10, 20)] *)
Definition circuit_qubits : list LineQubit.t := LineQubit.range 10 20.

(** [list(_qubit_index_edges())] *)
Definition _qubit_index_edges (q2i : gmap GridQubit.t nat)
    (edges : list (GridQubit.t * GridQubit.t)) : Py (list (nat * nat)) :=
  comprehension
    (λ e, i1 ← dict_getitem q2i e.1; i2 ← dict_getitem q2i e.2; mret (i1, i2))
    edges.

(** [_device_to_tket_device()] *)
Definition _device_to_tket_device (q2i : gmap GridQubit.t nat)
    (edges : list (GridQubit.t * GridQubit.t)) : Py Architecture :=
  _qubit_index_edges q2i edges.

(** [CompilationUnit(tk_circuit, predicates)] *)
Definition new_CompilationUnit (L : Libraries) (c : TkCircuit)
    (predicates : list (TkCircuit → bool)) : CompilationUnit :=
  {| cu_circuit := c; cu_predicates := predicates;
     cu_initial_map := (λ q, (q, q)) <$> tk_qubits L c;
     cu_final_map := (λ q, (q, q)) <$> tk_qubits L c |}.

(** The unit after [passes.apply(unit)]. *)
Definition routed_unit (L : Libraries) (tk_circuit : TkCircuit)
    (tk_device : Architecture) : CompilationUnit :=
  let unit := new_CompilationUnit L tk_circuit [ConnectivityPredicate L tk_device] in
  SequencePass [PlacementPass L tk_device; RoutingPass L tk_device] unit.

(** The cell "Placement and Routing pass", down to [assert valid]. *)
Definition cell_passes (L : Libraries) (tk_circuit : TkCircuit)
    (tk_device : Architecture) : Py CompilationUnit :=
  let unit := routed_unit L tk_circuit tk_device in
  let valid := check_all_predicates unit in
  py_assert valid AssertValid;;
  mret unit.

(** [tk_to_i] *)
Definition tk_to_i (tk : Node.t) : Py nat :=
  let i := Node.index tk in
  py_assert (bool_decide (length i = 1)) AssertIndexLen;;
  list_getitem i 0.

(** [{cirq.LineQubit(tk_to_i(n1)): index_to_qubit[tk_to_i(n2)]
      for n1, n2 in m.items()}], the key evaluated before the value (the
    order of Python 3.8, the version the workflow installs to execute the
    notebook). *)
Definition decode_map (i2q : list GridQubit.t) (m : QubitMap)
    : Py (gmap LineQubit.t GridQubit.t) :=
  items ← comprehension
    (λ n, k ← tk_to_i n.1; j ← tk_to_i n.2; q ← list_getitem i2q j;
          mret (LineQubit.mk k, q))
    m;
  mret (dict_of_items items).

(** [c.transform_qubits(f)] for an [f] that may raise *)
Definition transform_qubits {Q Q'} (f : Q → Py Q') (c : Circuit Q) : Py (Circuit Q') :=
  comprehension
    (λ op, qs ← comprehension f (qubits op);
           mret {| gate := gate op; qubits := qs |})
    c.

(** The cell "So we map the circuit to Grid Qubits". *)
Definition cell_routed_circuit (L : Libraries) (i2q : list GridQubit.t)
    (unit : CompilationUnit) : Py (Circuit GridQubit.t) :=
  let routed_circuit := tk_to_cirq L (cu_circuit unit) in
  transform_qubits (λ q, list_getitem i2q (LineQubit.x q)) routed_circuit.

(** The loop body [a, b = op.qubits; assert a.is_adjacent(b)]. *)
Definition assert_adjacent (op : Operation GridQubit.t) : Py () :=
  match qubits op with
  | [a; b] => py_assert (GridQubit.is_adjacent a b) AssertAdjacent
  | _ => Raise ValueError
  end.

(** The first cell under "Check that circuits are equivalent". *)
Definition cell_adjacency (routed_circuit : Circuit GridQubit.t) : Py () :=
  for_each assert_adjacent (findall_two_qubit_operations routed_circuit).

(** [permute_gate(qubits, permutation)] *)
Definition permute_gate {Q} (qs : list Q) (permutation : list nat) : Operation Q :=
  {| gate := LinearPermutationGate (length qs)
               (dict_of_items (enumerate permutation));
     qubits := qs |}.

(** [final_to_initial_map = {final_map[cq]: initial_map[cq] for cq in circuit_qubits}] *)
Definition final_to_initial_map (initial_map final_map : gmap LineQubit.t GridQubit.t)
    (cqs : list LineQubit.t) : Py (gmap GridQubit.t GridQubit.t) :=
  items ← comprehension
    (λ cq, k ← dict_getitem final_map cq; v ← dict_getitem initial_map cq; mret (k, v))
    cqs;
  mret (dict_of_items items).

(** [initial_qubits = [initial_map[cq] for cq in circuit_qubits]] *)
Definition initial_qubits (initial_map : gmap LineQubit.t GridQubit.t)
    (cqs : list LineQubit.t) : Py (list GridQubit.t) :=
  comprehension (dict_getitem initial_map) cqs.

(** [l.index(v)] *)
Definition index_method `{EqDecision A} (l : list A) (v : A) : Py nat :=
  match list_index v l with
  | Some i => Ok i
  | None => Raise ValueError
  end.

(** [final_permutation = [initial_qubits.index(final_to_initial_map[q])
                          for q in initial_qubits]] *)
Definition final_permutation (f2i : gmap GridQubit.t GridQubit.t)
    (iqs : list GridQubit.t) : Py (list nat) :=
  comprehension (λ q, v ← dict_getitem f2i q; index_method iqs v) iqs.

(** The three assignments of the last cell that lead to the permutation:
    [final_to_initial_map], [initial_qubits], [final_permutation]. *)
Definition permutation_of_maps (initial_map final_map : gmap LineQubit.t GridQubit.t)
    (cqs : list LineQubit.t) : Py (list GridQubit.t * list nat) :=
  f2i ← final_to_initial_map initial_map final_map cqs;
  iqs ← initial_qubits initial_map cqs;
  perm ← final_permutation f2i iqs;
  mret (iqs, perm).

(** The names bound when the run reaches "Check that circuits are
    equivalent". *)
Record Routed := {
  r_index_to_qubit : list GridQubit.t;
  r_qubit_to_index : gmap GridQubit.t nat;
  r_tk_device : Architecture;
  r_unit : CompilationUnit;
  r_initial_map : gmap LineQubit.t GridQubit.t;
  r_final_map : gmap LineQubit.t GridQubit.t;
  r_routed_circuit : Circuit GridQubit.t
}.

(** The cells from the top down to the routed circuit. *)
Definition cells_to_routing (L : Libraries) : Run Routed :=
  cell CellExampleCircuit (mret ());;
  '(i2q, q2i) ← cell CellIndexTables
      (mret (index_to_qubit (device_qubit_set L), qubit_to_index (device_qubit_set L)));
  '(tk_circuit, tk_device) ← cell CellTketDevice
      (let tk_circuit := cirq_to_tk L (circuit L) in
       tk_device ← _device_to_tket_device q2i (dev_graph_edges L);
       mret (tk_circuit, tk_device));
  unit ← cell CellPasses (cell_passes L tk_circuit tk_device);
  initial_map ← cell CellInitialMap (decode_map i2q (cu_initial_map unit));
  final_map ← cell CellFinalMap (decode_map i2q (cu_final_map unit));
  routed_circuit ← cell CellRoutedCircuit (cell_routed_circuit L i2q unit);
  mret {| r_index_to_qubit := i2q; r_qubit_to_index := q2i;
          r_tk_device := tk_device; r_unit := unit;
          r_initial_map := initial_map; r_final_map := final_map;
          r_routed_circuit := routed_circuit |}.

(** The last cell: permutation gate and comparison of the unitaries. *)
Definition cell_equivalence (L : Libraries) (st : Routed) : Py (Circuit GridQubit.t) :=
  '(iqs, perm) ← permutation_of_maps (r_initial_map st) (r_final_map st) circuit_qubits;
  let rcircuit_with_perm := r_routed_circuit st ++ [permute_gate iqs perm] in
  py_assert
    (allclose_up_to_global_phase L (circuit L) circuit_qubits rcircuit_with_perm iqs)
    AssertAllclose;;
  mret rcircuit_with_perm.

(** The whole notebook, run from the top. *)
Definition notebook (L : Libraries) : Run (Circuit GridQubit.t) :=
  st ← cells_to_routing L;
  cell CellAdjacency (cell_adjacency (r_routed_circuit st));;
  cell CellEquivalence (cell_equivalence L st).

(** ** The Deploy Docs workflow *)

Module Workflow.

(** What a push moves: a branch or a tag. *)
Inductive Ref :=
  | Branch (name : string)
  | Tag (name : string).

(** An event the CI service may deliver: its name ([push],
    [pull_request], [schedule], ...) and the ref it is about. *)
Record Event := { event_name : string; ref : Ref }.

(** The filter under an event name in [on:]; this file only uses
    [branches]. *)
Record Filter := { branches : list string }.

(** A step: [name], [uses], [with], [env], and the lines of [run]. *)
Record Step := {
  step_name : option string;
  uses : option string;
  with_ : list (string * string);
  env : list (string * string);
  run : list string
}.

(** The file has one job, [build-deploy]. *)
Record t := {
  name : string;
  on : list (string * Filter);
  job : string;
  runs_on : string;
  steps : list Step
}.

(** A branch pattern without wildcard characters matches its own name and
    nothing else; the workflow uses no other kind. *)
Definition branch_matches (pattern branch : string) : bool :=
  bool_decide (pattern = branch).

(** With a [branches] filter and no [tags] filter, only branch refs can
    match. *)
Definition filter_matches (f : Filter) (r : Ref) : bool :=
  match r with
  | Branch b => existsb (λ p, branch_matches p b) (branches f)
  | Tag _ => false
  end.

Definition triggers (w : t) (e : Event) : bool :=
  existsb (λ entry, bool_decide (entry.1 = event_name e) && filter_matches entry.2 (ref e))
          (on w).

(** The workflow file. *)
Definition deploy_docs : t := {|
  name := "Deploy Docs";
  on := [("push", {| branches := ["master"] |})];
  job := "build-deploy";
  runs_on := "ubuntu-latest";
  steps := [
    {| step_name := None; uses := Some "actions/checkout@v2";
       with_ := []; env := []; run := [] |};
    {| step_name := Some "Set up GCloud";
       uses := Some "GoogleCloudPlatform/github-actions/setup-gcloud@master";
       with_ := [("version", "270.0.0");
                 ("project_id", "${{ secrets.PROJECT_ID }}");
                 ("service_account_key", "${{ secrets.GOOGLE_APPLICATION_CREDENTIALS }}")];
       env := []; run := [] |};
    {| step_name := Some "Set up Python"; uses := Some "actions/setup-python@v1";
       with_ := [("python-version", "3.8")]; env := []; run := [] |};
    {| step_name := Some "Install dependencies"; uses := None; with_ := []; env := [];
       run := ["python -m pip install --upgrade pip";
               "pip install -r requirements.txt";
               "pip install --no-deps -e ."] |};
    {| step_name := Some "Build documentation"; uses := None; with_ := [];
       env := [("NBSPHINX_EXECUTE_NOTEBOOKS", "auto")];
       run := ["pip install sphinx nbsphinx jupyter_client ipykernel";
               "sudo apt-get install pandoc";
               "cd docs && make clean && make html"] |};
    {| step_name := Some "Deploy"; uses := None; with_ := []; env := [];
       run := ["gcloud app deploy docs/appengine/app.yaml"] |}
  ]
|}.

End Workflow.

(** * What is claimed of the notebook: the predicates *)

(** The cells a run goes through before "Check that circuits are
    equivalent". *)
Definition routing_cells : list Cell :=
  [CellExampleCircuit; CellIndexTables; CellTketDevice; CellPasses;
   CellInitialMap; CellFinalMap; CellRoutedCircuit].

(** A node or qubit whose index tuple has one component. *)
Definition single_component (n : Node.t) : Prop := length (Node.index n) = 1.

Definition single_component_map (m : QubitMap) : Prop :=
  Forall (λ n, single_component n.1 ∧ single_component n.2) m.

(** The device-side nodes of a map index into [index_to_qubit]. *)
Definition targets_in_range (i2q : list GridQubit.t) (m : QubitMap) : Prop :=
  Forall (λ n, Forall (λ j, j < length i2q) (Node.index n.2)) m.

(** Two indices coupled by the architecture, two qubits joined by an edge
    of the (undirected) device graph. *)
Definition coupled (arc : Architecture) (i j : nat) : Prop :=
  (i, j) ∈ arc ∨ (j, i) ∈ arc.

Definition adjacent_on_graph (edges : list (GridQubit.t * GridQubit.t))
    (a b : GridQubit.t) : Prop :=
  (a, b) ∈ edges ∨ (b, a) ∈ edges.

(** Every operation of [c] with a two-qubit gate acts on a pair related by
    [R]. *)
Definition two_qubit_operations_on {Q} (R : Q → Q → Prop) (c : Circuit Q) : Prop :=
  ∀ op, op ∈ c → is_two_qubit_gate (gate op) = true →
    ∃ a b, qubits op = [a; b] ∧ R a b.

(** What pytket promises of [ConnectivityPredicate], read through
    [tk_to_cirq]: a circuit that satisfies the predicate has its two-qubit
    gates on coupled nodes. *)
Definition connectivity_contract (L : Libraries) : Prop :=
  ∀ arc c, ConnectivityPredicate L arc c = true →
    two_qubit_operations_on
      (λ a b, coupled arc (LineQubit.x a) (LineQubit.x b))
      (tk_to_cirq L c).

(** * Small inputs and stand-ins for the libraries, to run the notebook *)

Definition grid (r c : nat) : GridQubit.t := GridQubit.mk (Z.of_nat r) (Z.of_nat c).

(** Two rows of five qubits. *)
Definition sample_grid_device : gset GridQubit.t :=
  list_to_set (r ← [0; 1]; c ← seq 0 5; [grid r c]).

Definition sample_grid_edges : list (GridQubit.t * GridQubit.t) :=
  (r ← [0; 1]; c ← seq 0 4; [(grid r c, grid r (S c))]) ++
  (c ← seq 0 5; [(grid 0 c, grid 1 c)]).

(** The same device with one more coupler, across a diagonal. *)
Definition sample_diagonal_edges : list (GridQubit.t * GridQubit.t) :=
  sample_grid_edges ++ [(grid 0 0, grid 1 1)].

Definition sample_cirq_to_tk (c : Circuit LineQubit.t) : TkCircuit :=
  (λ op, {| gate := gate op;
            qubits := (λ q, Node.mk "q" [LineQubit.x q]) <$> qubits op |}) <$> c.

Definition sample_tk_to_cirq (c : TkCircuit) : Circuit LineQubit.t :=
  (λ op, {| gate := gate op;
            qubits := (λ n, LineQubit.mk (hd 0 (Node.index n))) <$> qubits op |}) <$> c.

Definition sample_ConnectivityPredicate (arc : Architecture) (c : TkCircuit) : bool :=
  forallb
    (λ op, implb (is_two_qubit_gate (gate op))
             match qubits op with
             | [a; b] => bool_decide (coupled arc (LineQubit.x a) (LineQubit.x b))
             | _ => false
             end)
    (sample_tk_to_cirq c).

(** Logical qubit [q[10 + k]] goes to [node[k]]. *)
Definition sample_PlacementPass (arc : Architecture) : Pass := λ '(c, _, _),
  let place := (λ k, (Node.mk "q" [10 + k], Node.mk "node" [k])) <$> seq 0 10 in
  ((λ op, {| gate := gate op;
             qubits := (λ n, Node.mk "node" ((λ x, x - 10) <$> Node.index n))
                         <$> qubits op |}) <$> c,
   place, place).

(** One swap of the nodes 0 and 1 at the end of the circuit. *)
Definition sample_RoutingPass (arc : Architecture) : Pass := λ '(c, im, fm),
  let swap := λ n, if decide (Node.index n = [0]) then Node.mk "node" [1]
                   else if decide (Node.index n = [1]) then Node.mk "node" [0]
                   else n in
  (c ++ [{| gate := LibraryGate "SWAP" true;
            qubits := [Node.mk "node" [0]; Node.mk "node" [1]] |}],
   im, (λ kv, (kv.1, swap kv.2)) <$> fm).

Definition sample_libraries (c : Circuit LineQubit.t)
    (edges : list (GridQubit.t * GridQubit.t)) (close : bool) : Libraries :=
  {| circuit := c;
     device_qubit_set := sample_grid_device;
     dev_graph_edges := edges;
     cirq_to_tk := sample_cirq_to_tk;
     tk_to_cirq := sample_tk_to_cirq;
     tk_qubits := λ c, op ← c; qubits op;
     ConnectivityPredicate := sample_ConnectivityPredicate;
     PlacementPass := sample_PlacementPass;
     RoutingPass := sample_RoutingPass;
     allclose_up_to_global_phase := λ _ _ _ _, close |}.

Definition on_line (name : string) (two : bool) (xs : list nat) : Operation LineQubit.t :=
  {| gate := LibraryGate name two; qubits := LineQubit.mk <$> xs |}.

Definition sample_circuit : Circuit LineQubit.t :=
  [ on_line "ZZ" true [10; 11]; on_line "Rx" false [10];
    on_line "ZZ" true [12; 17]; on_line "Rx" false [19] ].

(** A run that completes. *)
Definition sample_run : Libraries :=
  sample_libraries sample_circuit sample_grid_edges true.

(** A run whose routed circuit keeps a gate on uncoupled nodes. *)
Definition sample_run_unrouted : Libraries :=
  sample_libraries [on_line "ZZ" true [10; 19]] sample_grid_edges true.

(** A run on the device with the diagonal coupler. *)
Definition sample_run_diagonal : Libraries :=
  sample_libraries [on_line "ZZ" true [10; 16]] sample_diagonal_edges true.

(** A run whose unitaries are found different. *)
Definition sample_run_different : Libraries :=
  sample_libraries sample_circuit sample_grid_edges false.

(** A five-qubit corner of a grid device. *)
Definition sample_device : gset GridQubit.t :=
  {[ GridQubit.mk 4 2; GridQubit.mk 3 2; GridQubit.mk 5 1;
     GridQubit.mk 4 1; GridQubit.mk 4 3 ]}.

(** Ten qubits of one grid column as initial positions, and final
    positions that differ from them by one swap. *)
Definition sample_initial_map : gmap LineQubit.t GridQubit.t :=
  dict_of_items (zip circuit_qubits ((λ r, GridQubit.mk (Z.of_nat r) 0) <$> seq 0 10)).

Definition sample_final_map : gmap LineQubit.t GridQubit.t :=
  dict_of_items
    (zip circuit_qubits
         ((λ r, GridQubit.mk (Z.of_nat r) 0) <$> [1; 0; 2; 3; 4; 5; 6; 7; 8; 9])).

(** Two maps whose nodes have one-component indices; in the first, the
    device-side node of the second item lies beyond the five qubits of
    [sample_device]. *)
Definition sample_map_out_of_range : QubitMap :=
  [ (Node.mk "q" [10], Node.mk "node" [2]);
    (Node.mk "q" [11], Node.mk "node" [7]) ].

Definition sample_map_in_range : QubitMap :=
  [ (Node.mk "q" [10], Node.mk "node" [2]);
    (Node.mk "q" [11], Node.mk "node" [4]) ].

(** * Properties *)

(** ** The order of grid qubits *)

#[global] Instance GridQubit_le_total : Total GridQubit.le.
Proof. intros [r1 c1] [r2 c2]. unfold GridQubit.le; simpl. lia. Qed.

#[global] Instance GridQubit_le_trans : Transitive GridQubit.le.
Proof. intros [r1 c1] [r2 c2] [r3 c3]. unfold GridQubit.le; simpl. lia. Qed.

Lemma GridQubit_lt_le_ne (p q : GridQubit.t) :
  GridQubit.lt p q ↔ GridQubit.le p q ∧ p ≠ q.
Proof.
  destruct p as [r1 c1], q as [r2 c2]. unfold GridQubit.lt, GridQubit.le; simpl.
  split.
  - intros Hlt. split; [lia|]. intros [= -> ->]. lia.
  - intros [Hle Hne].
    destruct (decide (r1 = r2)) as [->|]; [|lia].
    destruct (decide (c1 = c2)) as [->|]; [done|lia].
Qed.

Lemma GridQubit_lt_not_le (p q : GridQubit.t) :
  GridQubit.lt p q → ¬ GridQubit.le q p.
Proof.
  destruct p as [r1 c1], q as [r2 c2]. unfold GridQubit.lt, GridQubit.le; simpl. lia.
Qed.

(** ** Lists and dicts *)

Lemma StronglySorted_lookup_lt {A} (R : relation A) (l : list A) i j x y :
  StronglySorted R l → l !! i = Some x → l !! j = Some y → i < j → R x y.
Proof.
  intros Hs. revert i j. induction Hs as [|a l Hs IH Hall]; intros i j Hi Hj Hlt.
  - done.
  - destruct j as [|j]; [lia|]. simpl in Hj.
    destruct i as [|i]; simpl in Hi.
    + injection Hi as ->. rewrite Forall_forall in Hall.
      apply Hall. by eapply list_elem_of_lookup_2.
    + apply (IH i j); [done|done|lia].
Qed.

Lemma enumerate_lookup {A} (l : list A) (i : nat) (a : A) :
  (i, a) ∈ enumerate l ↔ l !! i = Some a.
Proof.
  unfold enumerate. rewrite elem_of_lookup_imap. split.
  - intros (j & b & [= -> ->] & Hj). done.
  - intros Hi. by exists i, a.
Qed.

Lemma enumerate_fst {A} (l : list A) : (enumerate l).*1 = seq 0 (length l).
Proof.
  unfold enumerate. rewrite fmap_imap.
  assert (∀ k, imap (λ n, fst ∘ pair (k + n)) l = seq k (length l)) as Hk.
  { induction l as [|a l IH]; intros k; [done|].
    rewrite imap_cons. simpl. rewrite Nat.add_0_r. f_equal.
    rewrite <- IH. apply imap_ext. intros i b _. simpl. f_equal. lia. }
  apply (Hk 0).
Qed.

Section dict_of_items.
Context `{Countable K} {V : Type}.
Implicit Types (items : list (K * V)) (m : gmap K V).

Lemma fold_insert_notin items m k :
  k ∉ items.*1 →
  fold_left (λ m kv, <[kv.1 := kv.2]> m) items m !! k = m !! k.
Proof.
  revert m. induction items as [|[k' v'] items IH]; intros m Hk; [done|].
  simpl in *. rewrite not_elem_of_cons in Hk. destruct Hk as [Hne Hk].
  rewrite IH by done. by rewrite lookup_insert_ne.
Qed.

Lemma fold_insert_elem items m k v :
  NoDup items.*1 → (k, v) ∈ items →
  fold_left (λ m kv, <[kv.1 := kv.2]> m) items m !! k = Some v.
Proof.
  revert m. induction items as [|[k' v'] items IH]; intros m Hnd Hin.
  - by apply elem_of_nil in Hin.
  - simpl in *. apply NoDup_cons in Hnd as [Hk' Hnd].
    apply elem_of_cons in Hin as [[= -> ->]|Hin].
    + rewrite fold_insert_notin by done. apply lookup_insert_eq.
    + by apply IH.
Qed.

Lemma fold_insert_Some items m k v :
  fold_left (λ m kv, <[kv.1 := kv.2]> m) items m !! k = Some v →
  (k, v) ∈ items ∨ m !! k = Some v.
Proof.
  revert m. induction items as [|[k' v'] items IH]; intros m Hk; [by right|].
  simpl in Hk. apply IH in Hk as [Hin|Hk].
  - left. by right.
  - simpl in Hk. rewrite lookup_insert in Hk. case_decide as Heq.
    + injection Hk as <-. subst k'. left. by left.
    + by right.
Qed.

Lemma dict_of_items_lookup items k v :
  NoDup items.*1 → dict_of_items items !! k = Some v ↔ (k, v) ∈ items.
Proof.
  intros Hnd. unfold dict_of_items. split.
  - intros Hk. apply fold_insert_Some in Hk as [Hin|Hk]; [done|].
    by rewrite lookup_empty in Hk.
  - by apply fold_insert_elem.
Qed.

Lemma dict_of_items_None items k :
  k ∉ items.*1 → dict_of_items items !! k = None.
Proof.
  intros Hk. unfold dict_of_items. rewrite fold_insert_notin by done.
  apply lookup_empty.
Qed.
End dict_of_items.

(** ** The index tables *)

Section index_tables.
Variable device : gset GridQubit.t.

Lemma index_to_qubit_perm : index_to_qubit device ≡ₚ elements device.
Proof. apply merge_sort_Permutation. Qed.

Lemma index_to_qubit_NoDup : NoDup (index_to_qubit device).
Proof. rewrite index_to_qubit_perm. apply NoDup_elements. Qed.

Lemma index_to_qubit_elem q : q ∈ index_to_qubit device ↔ q ∈ device.
Proof. rewrite index_to_qubit_perm. apply elem_of_elements. Qed.

Lemma index_to_qubit_length : length (index_to_qubit device) = size device.
Proof. by rewrite index_to_qubit_perm. Qed.

Lemma index_to_qubit_sorted : StronglySorted GridQubit.le (index_to_qubit device).
Proof. apply StronglySorted_merge_sort; apply _. Qed.

Lemma qubit_to_index_lookup q i :
  qubit_to_index device !! q = Some i ↔ index_to_qubit device !! i = Some q.
Proof.
  unfold qubit_to_index. rewrite dict_of_items_lookup.
  - rewrite <- enumerate_lookup. rewrite list_elem_of_fmap. split.
    + by intros ([j p] & [= -> ->] & Hin).
    + intros Hin. by exists (i, q).
  - rewrite <- list_fmap_compose.
    assert ((enumerate (index_to_qubit device)).*2 = index_to_qubit device) as Hsnd.
    { unfold enumerate. rewrite fmap_imap. clear.
      generalize (index_to_qubit device) as l. intros l.
      assert (∀ k, imap (λ n, snd ∘ pair (k + n)) l = l) as Hk.
      { induction l as [|a l IH]; intros k; [done|].
        rewrite imap_cons. simpl. f_equal. rewrite <- (IH (S k)) at 2.
        apply imap_ext. by intros. }
      apply (Hk 0). }
    erewrite list_fmap_ext; [rewrite Hsnd; apply index_to_qubit_NoDup|].
    by intros ? [].
Qed.
End index_tables.

(** C3: the two index tables are inverse lookup tables between the device's
    qubits and the contiguous indices [0 .. n-1], [n] the number of device
    qubits: [index_to_qubit[qubit_to_index[q]] == q] for every device qubit,
    [qubit_to_index[index_to_qubit[i]] == i] for every [i] in
    [range(len(index_to_qubit))], and the indices in use are exactly
    [0 .. n-1]. *)
Theorem index_tables_bijective (device : gset GridQubit.t) :
  (∀ q, q ∈ device →
     ∃ i, dict_getitem (qubit_to_index device) q = Ok i ∧
          list_getitem (index_to_qubit device) i = Ok q) ∧
  (∀ i, i < length (index_to_qubit device) →
     ∃ q, list_getitem (index_to_qubit device) i = Ok q ∧
          dict_getitem (qubit_to_index device) q = Ok i) ∧
  length (index_to_qubit device) = size device ∧
  map_img (qubit_to_index device) = (set_seq 0 (size device) : gset nat).
Proof.
  unfold dict_getitem, list_getitem. split; [|split; [|split]].
  - intros q Hq. apply index_to_qubit_elem, list_elem_of_lookup in Hq as [i Hi].
    exists i. rewrite Hi. by apply qubit_to_index_lookup in Hi as ->.
  - intros i Hi. apply lookup_lt_is_Some in Hi as [q Hq].
    exists q. rewrite Hq. by apply qubit_to_index_lookup in Hq as ->.
  - apply index_to_qubit_length.
  - apply set_eq. intros i. rewrite elem_of_map_img, elem_of_set_seq.
    rewrite <- index_to_qubit_length. split.
    + intros [q Hq]. apply qubit_to_index_lookup, lookup_lt_Some in Hq. lia.
    + intros [_ Hi]. apply lookup_lt_is_Some in Hi as [q Hq].
      exists q. by apply qubit_to_index_lookup.
Qed.

(** C10: the indices follow the order of the qubits: for device qubits
    [q1 < q2], [qubit_to_index[q1] < qubit_to_index[q2]]. *)
Theorem qubit_to_index_order_preserving (device : gset GridQubit.t) (q1 q2 : GridQubit.t) :
  q1 ∈ device → q2 ∈ device → GridQubit.lt q1 q2 →
  ∃ i1 i2, dict_getitem (qubit_to_index device) q1 = Ok i1 ∧
           dict_getitem (qubit_to_index device) q2 = Ok i2 ∧
           i1 < i2.
Proof.
  intros H1 H2 Hlt. unfold dict_getitem.
  apply index_to_qubit_elem, list_elem_of_lookup in H1 as [i1 Hi1].
  apply index_to_qubit_elem, list_elem_of_lookup in H2 as [i2 Hi2].
  exists i1, i2.
  rewrite (proj2 (qubit_to_index_lookup device q1 i1) Hi1).
  rewrite (proj2 (qubit_to_index_lookup device q2 i2) Hi2).
  split; [done|split; [done|]].
  destruct (decide (i1 < i2)) as [|Hge]; [done|exfalso].
  destruct (decide (i1 = i2)) as [->|Hne].
  - rewrite Hi1 in Hi2. injection Hi2 as ->.
    apply GridQubit_lt_le_ne in Hlt as [_ Hne]. done.
  - apply (GridQubit_lt_not_le _ _ Hlt).
    apply (StronglySorted_lookup_lt _ _ i2 i1 q2 q1 (index_to_qubit_sorted device));
      [done|done|lia].
Qed.

Example index_to_qubit_sample :
  index_to_qubit sample_device =
  [ GridQubit.mk 3 2; GridQubit.mk 4 1; GridQubit.mk 4 2;
    GridQubit.mk 4 3; GridQubit.mk 5 1 ].
Proof. vm_compute. reflexivity. Qed.

Example qubit_to_index_sample :
  qubit_to_index sample_device !! GridQubit.mk 4 3 = Some 3.
Proof. vm_compute. reflexivity. Qed.

Lemma index_tables_bijective_witness :
  (∃ i, dict_getitem (qubit_to_index sample_device) (GridQubit.mk 4 3) = Ok i ∧
        list_getitem (index_to_qubit sample_device) i = Ok (GridQubit.mk 4 3)) ∧
  (∃ q, list_getitem (index_to_qubit sample_device) 4 = Ok q ∧
        dict_getitem (qubit_to_index sample_device) q = Ok 4).
Proof.
  split.
  - apply (proj1 (index_tables_bijective sample_device)). vm_compute. reflexivity.
  - apply (proj1 (proj2 (index_tables_bijective sample_device))). vm_compute. lia.
Defined.

Lemma qubit_to_index_order_preserving_witness :
  ∃ i1 i2,
    dict_getitem (qubit_to_index sample_device) (GridQubit.mk 4 3) = Ok i1 ∧
    dict_getitem (qubit_to_index sample_device) (GridQubit.mk 5 1) = Ok i2 ∧
    i1 < i2.
Proof.
  apply (qubit_to_index_order_preserving sample_device).
  - vm_compute. reflexivity.
  - vm_compute. reflexivity.
  - left. simpl. lia.
Defined.

(** ** Comprehensions, loops and lookups *)

Lemma py_bind_Ok {A B} (f : A → Py B) (m : Py A) (b : B) :
  m ≫= f = Ok b ↔ ∃ a, m = Ok a ∧ f a = Ok b.
Proof.
  destruct m as [a|e]; simpl; split.
  - intros Hf. by exists a.
  - by intros (a' & [= ->] & Hf).
  - done.
  - by intros (a' & [=] & _).
Qed.

Lemma py_assert_Ok (cond : bool) (site : Assertion) (u : ()) :
  py_assert cond site = Ok u ↔ cond = true.
Proof. destruct cond, u; simpl; split; done. Qed.

Lemma list_getitem_Ok {A} (l : list A) i a :
  list_getitem l i = Ok a ↔ l !! i = Some a.
Proof. unfold list_getitem. destruct (l !! i); split; congruence. Qed.

Lemma dict_getitem_Ok `{Countable K} {V} (d : gmap K V) k v :
  dict_getitem d k = Ok v ↔ d !! k = Some v.
Proof. unfold dict_getitem. destruct (d !! k); split; congruence. Qed.

Lemma comprehension_Ok {A B} (f : A → Py B) (l : list A) (bs : list B) :
  comprehension f l = Ok bs ↔ Forall2 (λ a b, f a = Ok b) l bs.
Proof.
  revert bs. induction l as [|a l IH]; intros bs; simpl.
  - split; [intros [= <-]; constructor|by intros ->%Forall2_nil_inv_l].
  - rewrite py_bind_Ok. split.
    + intros (b & Hb & Hrest). apply py_bind_Ok in Hrest as (bs' & Hbs' & [= <-]).
      constructor; [done|]. by apply IH.
    + intros (b & bs' & Hb & Hbs' & ->)%Forall2_cons_inv_l.
      exists b. split; [done|]. apply py_bind_Ok. exists bs'. split; [|done].
      by apply IH.
Qed.

Lemma comprehension_total {A B} (f : A → Py B) (l : list A) :
  Forall (λ a, ∃ b, f a = Ok b) l → ∃ bs, comprehension f l = Ok bs.
Proof.
  induction 1 as [|a l [b Hb] _ [bs Hbs]]; simpl.
  - by exists [].
  - exists (b :: bs). by rewrite Hb, Hbs.
Qed.

Lemma comprehension_Raise {A B} (f : A → Py B) (l : list A) (e : Exn) :
  comprehension f l = Raise e → ∃ a, a ∈ l ∧ f a = Raise e.
Proof.
  induction l as [|a l IH]; simpl; [done|].
  destruct (f a) as [b|e'] eqn:Hfa; simpl.
  - destruct (comprehension f l) as [bs|e'']; simpl; [done|].
    intros [= ->]. destruct IH as (a' & Hin & Ha'); [done|].
    exists a'. split; [by right|done].
  - intros [= ->]. exists a. split; [by left|done].
Qed.

Lemma for_each_Ok {A} (body : A → Py ()) (l : list A) :
  for_each body l = Ok () ↔ Forall (λ a, body a = Ok ()) l.
Proof.
  induction l as [|a l IH]; simpl.
  - split; [constructor|done].
  - rewrite py_bind_Ok, Forall_cons. split.
    + intros ([] & Ha & Hl). split; [done|by apply IH].
    + intros [Ha Hl]. exists (). split; [done|by apply IH].
Qed.

Lemma for_each_Raise {A} (body : A → Py ()) (l : list A) (e : Exn) :
  for_each body l = Raise e → ∃ a, a ∈ l ∧ body a = Raise e.
Proof.
  induction l as [|a l IH]; simpl; [done|].
  destruct (body a) as [[]|e'] eqn:Ha; simpl.
  - intros (a' & Hin & Ha')%IH. exists a'. split; [by right|done].
  - intros [= ->]. exists a. split; [by left|done].
Qed.

Lemma list_index_Some `{EqDecision A} (v : A) (l : list A) (j : nat) :
  list_index v l = Some j → l !! j = Some v.
Proof.
  revert j. induction l as [|y l IH]; intros j; simpl; [done|].
  case_decide as Hy.
  - intros [= <-]. simpl. by f_equal.
  - destruct (list_index v l) as [j'|]; simpl; [|done].
    intros [= <-]. simpl. by apply IH.
Qed.

Lemma list_index_elem `{EqDecision A} (v : A) (l : list A) :
  v ∈ l → ∃ j, list_index v l = Some j.
Proof.
  induction l as [|y l IH]; [by intros ?%elem_of_nil|].
  intros Hin. simpl. case_decide as Hy; [by exists 0|].
  apply elem_of_cons in Hin as [->|Hin]; [done|].
  destruct (IH Hin) as [j ->]. by exists (S j).
Qed.

(** A duplicate-free list of [n] numbers below [n] is a permutation of
    [0 .. n-1]. *)
Lemma NoDup_bounded_Permutation (l : list nat) :
  NoDup l → Forall (λ j, j < length l) l → l ≡ₚ seq 0 (length l).
Proof.
  intros Hnd Hlt. apply submseteq_length_Permutation.
  - apply NoDup_submseteq; [done|]. intros j Hj.
    rewrite Forall_forall in Hlt. apply elem_of_seq. specialize (Hlt j Hj). lia.
  - by rewrite length_seq.
Qed.

Lemma Forall2_NoDup_inj {A B} (R : A → B → Prop) (l : list A) (k : list B) :
  Forall2 R l k →
  (∀ a1 a2 b, a1 ∈ l → a2 ∈ l → R a1 b → R a2 b → a1 = a2) →
  NoDup l → NoDup k.
Proof.
  induction 1 as [|a b l k HR HF IH]; intros Hinj Hnd; [constructor|].
  apply NoDup_cons in Hnd as [Ha Hnd]. apply NoDup_cons. split.
  - intros Hb. apply list_elem_of_lookup in Hb as [i Hi].
    destruct (Forall2_lookup_r _ _ _ _ _ HF Hi) as (a' & Ha' & HR').
    assert (a' ∈ l) as Hin by (by eapply list_elem_of_lookup_2).
    assert (a = a') as -> by (apply (Hinj a a' b); [by left|by right|done|done]).
    done.
  - apply IH; [|done]. intros a1 a2 b' H1 H2. apply Hinj; by right.
Qed.

Lemma NoDup_snd_inj {A B} (l : list (A * B)) a1 a2 b :
  NoDup l.*2 → (a1, b) ∈ l → (a2, b) ∈ l → a1 = a2.
Proof.
  induction l as [|[a' b'] l IH]; simpl; intros Hnd H1 H2.
  - by apply elem_of_nil in H1.
  - apply NoDup_cons in Hnd as [Hb' Hnd].
    apply elem_of_cons in H1 as [Heq1|H1]; apply elem_of_cons in H2 as [Heq2|H2];
      simplify_eq.
    + done.
    + exfalso. apply Hb'. apply list_elem_of_fmap. by exists (a2, b').
    + exfalso. apply Hb'. apply list_elem_of_fmap. by exists (a1, b').
    + by apply IH.
Qed.

(** ** The final permutation *)

Section final_permutation.
Context (initial_map final_map : gmap LineQubit.t GridQubit.t).
Context (cqs : list LineQubit.t).
Hypothesis cqs_NoDup : NoDup cqs.
Hypothesis maps_defined :
  ∀ cq, cq ∈ cqs → is_Some (initial_map !! cq) ∧ is_Some (final_map !! cq).
Hypothesis initial_inj :
  ∀ c1 c2, c1 ∈ cqs → c2 ∈ cqs → initial_map !! c1 = initial_map !! c2 → c1 = c2.
Hypothesis final_inj :
  ∀ c1 c2, c1 ∈ cqs → c2 ∈ cqs → final_map !! c1 = final_map !! c2 → c1 = c2.
Hypothesis same_image :
  ∀ q, (∃ c, c ∈ cqs ∧ initial_map !! c = Some q) ↔
       (∃ c, c ∈ cqs ∧ final_map !! c = Some q).

Lemma values_NoDup (m : gmap LineQubit.t GridQubit.t) (qs : list GridQubit.t) :
  (∀ c1 c2, c1 ∈ cqs → c2 ∈ cqs → m !! c1 = m !! c2 → c1 = c2) →
  Forall2 (λ c q, m !! c = Some q) cqs qs → NoDup qs.
Proof using cqs_NoDup.
  intros Hinj HF. eapply Forall2_NoDup_inj; [exact HF| |exact cqs_NoDup].
  intros c1 c2 q H1 H2 Hc1 Hc2. apply Hinj; [done|done|congruence].
Qed.

Lemma permutation_of_maps_general :
  ∃ iqs perm,
    permutation_of_maps initial_map final_map cqs = Ok (iqs, perm) ∧
    Forall2 (λ c q, initial_map !! c = Some q) cqs iqs ∧
    NoDup iqs ∧
    perm ≡ₚ seq 0 (length cqs).
Proof using All.
  unfold permutation_of_maps, final_to_initial_map, initial_qubits, final_permutation.
  (* the items of final_to_initial_map *)
  destruct (comprehension_total
    (λ cq, k ← dict_getitem final_map cq; v ← dict_getitem initial_map cq; mret (k, v))
    cqs) as [items Hitems].
  { apply Forall_forall. intros c Hc.
    destruct (maps_defined c Hc) as [[q Hq] [k Hk]].
    exists (k, q). unfold dict_getitem. by rewrite Hk, Hq. }
  rewrite Hitems. simpl.
  apply comprehension_Ok in Hitems.
  assert (Forall2 (λ c kv, final_map !! c = Some kv.1 ∧ initial_map !! c = Some kv.2)
            cqs items) as HR.
  { eapply Forall2_impl; [exact Hitems|]. intros c [k v] Hkv. simpl in *.
    apply py_bind_Ok in Hkv as (k' & Hk & Hkv).
    apply py_bind_Ok in Hkv as (v' & Hv & [= <- <-]).
    by apply dict_getitem_Ok in Hk, Hv. }
  clear Hitems.
  assert (NoDup items.*1) as Hnd1.
  { apply (values_NoDup final_map); [done|]. apply Forall2_fmap_r.
    eapply Forall2_impl; [exact HR|]. by intros ?? []. }
  assert (NoDup items.*2) as Hnd2.
  { apply (values_NoDup initial_map); [done|]. apply Forall2_fmap_r.
    eapply Forall2_impl; [exact HR|]. by intros ?? []. }
  (* initial_qubits *)
  destruct (comprehension_total (dict_getitem initial_map) cqs) as [iqs Hiqs].
  { apply Forall_forall. intros c Hc. destruct (maps_defined c Hc) as [[q Hq] _].
    exists q. by apply dict_getitem_Ok. }
  rewrite Hiqs. simpl. apply comprehension_Ok in Hiqs.
  assert (Forall2 (λ c q, initial_map !! c = Some q) cqs iqs) as HI.
  { eapply Forall2_impl; [exact Hiqs|]. intros c q Hq. by apply dict_getitem_Ok. }
  clear Hiqs.
  assert (NoDup iqs) as Hndi by (by apply (values_NoDup initial_map)).
  assert (∀ c q, c ∈ cqs → initial_map !! c = Some q → q ∈ iqs) as Hin_iqs.
  { intros c q Hc Hq. apply list_elem_of_lookup in Hc as [i Hi].
    destruct (Forall2_lookup_l _ _ _ _ _ HI Hi) as (q' & Hq' & Hcq').
    rewrite Hq in Hcq'. injection Hcq' as ->. by eapply list_elem_of_lookup_2. }
  (* every element of the comprehension has a value *)
  set (step := λ q, v ← dict_getitem (dict_of_items items) q; index_method iqs v).
  destruct (comprehension_total step iqs) as [perm Hperm].
  { apply Forall_forall. intros q Hq.
    apply list_elem_of_lookup in Hq as [i Hi].
    destruct (Forall2_lookup_r _ _ _ _ _ HI Hi) as (c & Hc & Hcq).
    destruct (proj1 (same_image q)) as (c' & Hc' & Hc'q).
    { exists c. split; [by eapply list_elem_of_lookup_2|done]. }
    pose proof Hc' as Hc'in. apply list_elem_of_lookup in Hc' as [i' Hi'].
    destruct (Forall2_lookup_l _ _ _ _ _ HR Hi') as ([k v] & Hkv & Hk & Hv).
    simpl in *. rewrite Hc'q in Hk. injection Hk as <-.
    assert (dict_of_items items !! q = Some v) as Hf2i.
    { apply dict_of_items_lookup; [done|]. by eapply list_elem_of_lookup_2. }
    destruct (list_index_elem v iqs) as [j Hj]; [by eapply Hin_iqs|].
    exists j. unfold step, dict_getitem, index_method. rewrite Hf2i. simpl.
    by rewrite Hj. }
  rewrite Hperm. simpl. exists iqs, perm. split; [done|]. split; [done|]. split; [done|].
  apply comprehension_Ok in Hperm.
  assert (∀ q j, step q = Ok j →
            ∃ v, (q, v) ∈ items ∧ iqs !! j = Some v) as Hstep.
  { intros q j Hqj. unfold step in Hqj.
    apply py_bind_Ok in Hqj as (v & Hv & Hj). exists v.
    apply dict_getitem_Ok, dict_of_items_lookup in Hv; [|done]. split; [done|].
    unfold index_method in Hj. destruct (list_index v iqs) as [j'|] eqn:Hidx; [|done].
    injection Hj as ->. by apply list_index_Some in Hidx. }
  assert (length perm = length cqs) as Hlen.
  { rewrite <- (Forall2_length _ _ _ Hperm). symmetry. by eapply Forall2_length. }
  rewrite <- Hlen. apply NoDup_bounded_Permutation.
  - eapply Forall2_NoDup_inj; [exact Hperm| |exact Hndi].
    intros q1 q2 j _ _ H1 H2.
    apply Hstep in H1 as (v1 & Hin1 & Hj1). apply Hstep in H2 as (v2 & Hin2 & Hj2).
    rewrite Hj1 in Hj2. injection Hj2 as <-.
    by eapply NoDup_snd_inj.
  - apply Forall_forall. intros j Hj. apply list_elem_of_lookup in Hj as [i Hi].
    destruct (Forall2_lookup_r _ _ _ _ _ Hperm Hi) as (q & _ & Hqj).
    apply Hstep in Hqj as (v & _ & Hv). apply lookup_lt_Some in Hv.
    rewrite (Forall2_length _ _ _ Hperm) in Hv. done.
Qed.
End final_permutation.

Lemma circuit_qubits_NoDup : NoDup circuit_qubits.
Proof.
  unfold circuit_qubits, LineQubit.range. apply NoDup_fmap_2; [|apply NoDup_seq].
  by intros ?? [=].
Qed.

Lemma circuit_qubits_length : length circuit_qubits = 10.
Proof. reflexivity. Qed.

(** The dict [{i: permutation[i] for i in range(len(permutation))}] that
    [permute_gate] hands to the gate. *)
Lemma permutation_dict_lookup (permutation : list nat) (i : nat) :
  dict_of_items (enumerate permutation) !! i = permutation !! i.
Proof.
  assert (NoDup (enumerate permutation).*1) as Hnd
    by (rewrite enumerate_fst; apply NoDup_seq).
  destruct (permutation !! i) as [j|] eqn:Hi.
  - apply dict_of_items_lookup; [done|]. by apply enumerate_lookup.
  - apply dict_of_items_None. rewrite enumerate_fst, elem_of_seq.
    apply lookup_ge_None in Hi. lia.
Qed.

Lemma permutation_dict_wellformed (n : nat) (permutation : list nat) :
  permutation ≡ₚ seq 0 n →
  dom (dict_of_items (enumerate permutation)) = (set_seq 0 n : gset nat) ∧
  map_img (dict_of_items (enumerate permutation)) = (set_seq 0 n : gset nat).
Proof.
  intros Hperm. split; apply set_eq; intros i; rewrite elem_of_set_seq.
  - rewrite elem_of_dom, permutation_dict_lookup, lookup_lt_is_Some.
    rewrite (Permutation_length Hperm), length_seq. lia.
  - rewrite elem_of_map_img.
    setoid_rewrite permutation_dict_lookup.
    rewrite <- list_elem_of_lookup, Hperm, elem_of_seq. lia.
Qed.

(** C9: when the decoded [initial_map] and [final_map] are defined and
    injective on the ten circuit qubits and reach the same device qubits,
    the last cell computes [final_permutation] without raising, and the
    list is a permutation of [0 .. 9] (one entry per initial qubit, every
    index exactly once); the gate appended is a [LinearPermutationGate] on
    ten qubits whose dict has [0 .. 9] both as keys and as values. *)
Theorem final_permutation_is_permutation
    (initial_map final_map : gmap LineQubit.t GridQubit.t) :
  (∀ cq, cq ∈ circuit_qubits →
     is_Some (initial_map !! cq) ∧ is_Some (final_map !! cq)) →
  (∀ c1 c2, c1 ∈ circuit_qubits → c2 ∈ circuit_qubits →
     initial_map !! c1 = initial_map !! c2 → c1 = c2) →
  (∀ c1 c2, c1 ∈ circuit_qubits → c2 ∈ circuit_qubits →
     final_map !! c1 = final_map !! c2 → c1 = c2) →
  (∀ q, (∃ c, c ∈ circuit_qubits ∧ initial_map !! c = Some q) ↔
        (∃ c, c ∈ circuit_qubits ∧ final_map !! c = Some q)) →
  ∃ iqs perm d,
    permutation_of_maps initial_map final_map circuit_qubits = Ok (iqs, perm) ∧
    length iqs = 10 ∧ NoDup iqs ∧
    perm ≡ₚ seq 0 10 ∧
    gate (permute_gate iqs perm) = LinearPermutationGate 10 d ∧
    dom d = (set_seq 0 10 : gset nat) ∧
    map_img d = (set_seq 0 10 : gset nat).
Proof.
  intros Hdef HinjI HinjF Himg.
  destruct (permutation_of_maps_general initial_map final_map circuit_qubits
              circuit_qubits_NoDup Hdef HinjI HinjF Himg)
    as (iqs & perm & Hrun & HI & Hnd & Hperm).
  assert (length iqs = 10) as Hlen by (by rewrite <- (Forall2_length _ _ _ HI)).
  exists iqs, perm, (dict_of_items (enumerate perm)).
  split; [done|]. split; [done|]. split; [done|]. split; [done|].
  split; [unfold permute_gate; simpl; by rewrite Hlen|].
  by apply permutation_dict_wellformed.
Qed.

Example permutation_of_maps_sample :
  permutation_of_maps sample_initial_map sample_final_map circuit_qubits
  = Ok ((λ r, GridQubit.mk (Z.of_nat r) 0) <$> seq 0 10,
        [1; 0; 2; 3; 4; 5; 6; 7; 8; 9]).
Proof. vm_compute. reflexivity. Qed.

Ltac each_circuit_qubit H :=
  repeat (apply elem_of_cons in H as [->|H]); [..|by apply elem_of_nil in H].

Lemma final_permutation_is_permutation_witness :
  ∃ iqs perm d,
    permutation_of_maps sample_initial_map sample_final_map circuit_qubits
      = Ok (iqs, perm) ∧
    length iqs = 10 ∧ NoDup iqs ∧
    perm ≡ₚ seq 0 10 ∧
    gate (permute_gate iqs perm) = LinearPermutationGate 10 d ∧
    dom d = (set_seq 0 10 : gset nat) ∧
    map_img d = (set_seq 0 10 : gset nat).
Proof.
  apply final_permutation_is_permutation.
  - intros cq Hcq. each_circuit_qubit Hcq; vm_compute; split; eexists; reflexivity.
  - intros c1 c2 H1 H2. each_circuit_qubit H1; each_circuit_qubit H2;
      vm_compute; first [reflexivity | intros [=]].
  - intros c1 c2 H1 H2. each_circuit_qubit H1; each_circuit_qubit H2;
      vm_compute; first [reflexivity | intros [=]].
  - intros q. split; intros (c & Hc & Hq); each_circuit_qubit Hc;
      vm_compute in Hq; injection Hq as <-;
      apply Exists_exists; eapply bool_decide_unpack; vm_compute; exact I.
Defined.

(** ** Decoding tket nodes *)

Lemma tk_to_i_single (tk : Node.t) (i : nat) :
  Node.index tk = [i] → tk_to_i tk = Ok i.
Proof. unfold tk_to_i. by intros ->. Qed.

Lemma tk_to_i_not_single (tk : Node.t) :
  length (Node.index tk) ≠ 1 → tk_to_i tk = Raise (AssertionError AssertIndexLen).
Proof.
  unfold tk_to_i, py_assert. intros Hlen.
  by rewrite bool_decide_eq_false_2.
Qed.

Lemma single_component_inv (n : Node.t) :
  single_component n → ∃ i, Node.index n = [i].
Proof.
  unfold single_component. destruct (Node.index n) as [|i [|??]]; try done.
  by exists i.
Qed.

Lemma decode_map_Raise (i2q : list GridQubit.t) (m : QubitMap) (e : Exn) :
  single_component_map m → decode_map i2q m = Raise e → e = IndexError.
Proof.
  unfold decode_map. intros Hm Hdec.
  destruct (comprehension _ m) as [items|e'] eqn:Hitems; [done|].
  simpl in Hdec. injection Hdec as ->.
  apply comprehension_Raise in Hitems as ([n1 n2] & Hin & Hn).
  unfold single_component_map in Hm. rewrite Forall_forall in Hm.
  destruct (Hm _ Hin) as [[k Hk]%single_component_inv [j Hj]%single_component_inv].
  simpl in *. rewrite (tk_to_i_single _ _ Hk), (tk_to_i_single _ _ Hj) in Hn.
  simpl in Hn. unfold list_getitem in Hn.
  destruct (i2q !! j); simpl in Hn; [done|]. by injection Hn.
Qed.

Lemma decode_map_total (i2q : list GridQubit.t) (m : QubitMap) :
  single_component_map m → targets_in_range i2q m →
  ∃ d, decode_map i2q m = Ok d.
Proof.
  unfold decode_map. intros Hm Hr.
  destruct (comprehension_total
    (λ n : Node.t * Node.t,
       k ← tk_to_i n.1; j ← tk_to_i n.2; q ← list_getitem i2q j;
       mret (LineQubit.mk k, q)) m) as [items Hitems].
  - unfold single_component_map, targets_in_range in *.
    rewrite Forall_forall in Hm, Hr. apply Forall_forall. intros [n1 n2] Hin.
    destruct (Hm _ Hin) as [[k Hk]%single_component_inv [j Hj]%single_component_inv].
    specialize (Hr _ Hin). simpl in *. rewrite Hj in Hr.
    apply Forall_cons in Hr as [Hlt _]. apply lookup_lt_is_Some in Hlt as [q Hq].
    exists (LineQubit.mk k, q).
    rewrite (tk_to_i_single _ _ Hk), (tk_to_i_single _ _ Hj). simpl.
    unfold list_getitem. by rewrite Hq.
  - rewrite Hitems. by eexists.
Qed.

(** C8, as the code has it: [tk_to_i] returns the one component of a
    single-component index and raises [AssertionError] on any other index;
    when every node of a map has a single-component index, decoding the map
    never raises that [AssertionError] (the only exception left is the
    [IndexError] of [index_to_qubit[...]]), and decoding yields a dict as
    soon as the device-side indices are below [len(index_to_qubit)]. *)
Theorem tk_to_i_decoding :
  (∀ tk i, Node.index tk = [i] → tk_to_i tk = Ok i) ∧
  (∀ tk, length (Node.index tk) ≠ 1 →
     tk_to_i tk = Raise (AssertionError AssertIndexLen)) ∧
  (∀ i2q m, single_component_map m →
     (∀ e, decode_map i2q m = Raise e → e = IndexError) ∧
     (targets_in_range i2q m → ∃ d, decode_map i2q m = Ok d)).
Proof.
  split; [exact tk_to_i_single|]. split; [exact tk_to_i_not_single|].
  intros i2q m Hm. split.
  - intros e. by apply decode_map_Raise.
  - by apply decode_map_total.
Qed.

(** C8 as stated fails: single-component indices alone do not make the
    decoding total. *)
Lemma decode_map_not_total :
  ¬ (∀ i2q m, single_component_map m → ∃ d, decode_map i2q m = Ok d).
Proof.
  intros Htotal.
  destruct (Htotal (index_to_qubit sample_device) sample_map_out_of_range) as [d Hd].
  - repeat constructor.
  - vm_compute in Hd. discriminate.
Qed.

Example decode_map_out_of_range :
  decode_map (index_to_qubit sample_device) sample_map_out_of_range = Raise IndexError.
Proof. vm_compute. reflexivity. Qed.

Lemma tk_to_i_decoding_witness :
  ∃ d, decode_map (index_to_qubit sample_device) sample_map_in_range = Ok d.
Proof.
  apply (proj2 (proj2 tk_to_i_decoding)).
  - repeat constructor.
  - unfold targets_in_range, sample_map_in_range. simpl.
    repeat constructor; vm_compute; lia.
Defined.

(** ** Runs *)

Lemma run_bind_Ok {A B} (f : A → Run B) (m : Run A) (tr : list Cell) (b : B) :
  m ≫= f = (tr, Ok b) ↔
  ∃ tr1 a tr2, m = (tr1, Ok a) ∧ f a = (tr2, Ok b) ∧ tr = tr1 ++ tr2.
Proof.
  destruct m as [tr1 [a|e]]; simpl; unfold mbind, Run_bind, run_bind; split.
  - destruct (f a) as [tr2 r] eqn:Hfa. intros [= <- ->]. by exists tr1, a, tr2.
  - intros (tr1' & a' & tr2 & [= <- <-] & -> & ->). done.
  - done.
  - by intros (tr1' & a' & tr2 & [=] & _).
Qed.

Lemma run_bind_Raise_l {A B} (f : A → Run B) (tr : list Cell) (e : Exn) :
  (tr, Raise e) ≫= f = (tr, Raise e).
Proof. done. Qed.

Lemma run_bind_Ok_l {A B} (f : A → Run B) (tr : list Cell) (a : A) :
  (tr, Ok a) ≫= f = (tr ++ (f a).1, (f a).2).
Proof. unfold mbind, Run_bind, run_bind. by destruct (f a). Qed.

(** What a run that reaches the routed circuit has computed on the way. *)
Lemma cells_to_routing_Ok (L : Libraries) (tr : list Cell) (st : Routed) :
  cells_to_routing L = (tr, Ok st) →
  tr = routing_cells ∧
  r_index_to_qubit st = index_to_qubit (device_qubit_set L) ∧
  r_qubit_to_index st = qubit_to_index (device_qubit_set L) ∧
  _device_to_tket_device (r_qubit_to_index st) (dev_graph_edges L) = Ok (r_tk_device st) ∧
  cell_passes L (cirq_to_tk L (circuit L)) (r_tk_device st) = Ok (r_unit st) ∧
  decode_map (r_index_to_qubit st) (cu_initial_map (r_unit st)) = Ok (r_initial_map st) ∧
  decode_map (r_index_to_qubit st) (cu_final_map (r_unit st)) = Ok (r_final_map st) ∧
  cell_routed_circuit L (r_index_to_qubit st) (r_unit st) = Ok (r_routed_circuit st).
Proof.
  unfold cells_to_routing, cell, routing_cells.
  unfold mbind at 1 2 3 4 5 6 7, Run_bind, run_bind. simpl.
  destruct (_device_to_tket_device _ _) as [arc|e] eqn:Harc; simpl; [|done].
  destruct (cell_passes _ _ _) as [unit|e] eqn:Hunit; simpl; [|done].
  destruct (decode_map _ (cu_initial_map unit)) as [im|e] eqn:Him; simpl; [|done].
  destruct (decode_map _ (cu_final_map unit)) as [fm|e] eqn:Hfm; simpl; [|done].
  destruct (cell_routed_circuit _ _ _) as [rc|e] eqn:Hrc; simpl; [|done].
  intros [= <- <-]. simpl. done.
Qed.

(** ** Placement, routing and the connectivity predicate *)

Lemma apply_pass_predicates (p : Pass) (u : CompilationUnit) :
  cu_predicates (apply_pass p u) = cu_predicates u.
Proof.
  unfold apply_pass.
  by destruct (p (cu_circuit u, cu_initial_map u, cu_final_map u)) as [[c im] fm].
Qed.

Lemma routed_unit_predicates (L : Libraries) (c : TkCircuit) (arc : Architecture) :
  cu_predicates (routed_unit L c arc) = [ConnectivityPredicate L arc].
Proof.
  unfold routed_unit, SequencePass. simpl. by rewrite !apply_pass_predicates.
Qed.

Lemma check_routed_unit (L : Libraries) (c : TkCircuit) (arc : Architecture) :
  check_all_predicates (routed_unit L c arc)
  = ConnectivityPredicate L arc (cu_circuit (routed_unit L c arc)).
Proof.
  unfold check_all_predicates. rewrite routed_unit_predicates. simpl.
  apply andb_true_r.
Qed.

Lemma cell_passes_Ok (L : Libraries) (c : TkCircuit) (arc : Architecture)
    (unit : CompilationUnit) :
  cell_passes L c arc = Ok unit ↔
  unit = routed_unit L c arc ∧
  ConnectivityPredicate L arc (cu_circuit unit) = true.
Proof.
  unfold cell_passes. rewrite check_routed_unit.
  destruct (ConnectivityPredicate L arc (cu_circuit (routed_unit L c arc))) eqn:Hvalid;
    simpl; split.
  - by intros [= <-].
  - by intros [-> _].
  - done.
  - intros [-> Htrue]. congruence.
Qed.


(** ** Two-qubit operations of the routed circuit *)

Lemma _qubit_index_edges_elem (q2i : gmap GridQubit.t nat)
    (edges : list (GridQubit.t * GridQubit.t)) (arc : Architecture) (i j : nat) :
  _qubit_index_edges q2i edges = Ok arc → (i, j) ∈ arc →
  ∃ a b, (a, b) ∈ edges ∧ q2i !! a = Some i ∧ q2i !! b = Some j.
Proof.
  unfold _qubit_index_edges. intros HF%comprehension_Ok Hin.
  apply list_elem_of_lookup in Hin as [n Hn].
  destruct (Forall2_lookup_r _ _ _ _ _ HF Hn) as ([a b] & He & Hab).
  simpl in Hab. apply py_bind_Ok in Hab as (i' & Hi & Hab).
  apply py_bind_Ok in Hab as (j' & Hj & [= <- <-]).
  exists a, b. split; [by eapply list_elem_of_lookup_2|].
  by apply dict_getitem_Ok in Hi, Hj.
Qed.

Lemma transform_qubits_elem {Q Q'} (f : Q → Py Q') (c : Circuit Q)
    (c' : Circuit Q') (op' : Operation Q') :
  transform_qubits f c = Ok c' → op' ∈ c' →
  ∃ op, op ∈ c ∧ gate op' = gate op ∧
        Forall2 (λ q q', f q = Ok q') (qubits op) (qubits op').
Proof.
  unfold transform_qubits. intros HF%comprehension_Ok Hin.
  apply list_elem_of_lookup in Hin as [n Hn].
  destruct (Forall2_lookup_r _ _ _ _ _ HF Hn) as (op & Hop & Hopop').
  exists op. split; [by eapply list_elem_of_lookup_2|].
  apply py_bind_Ok in Hopop' as (qs & Hqs & [= <-]). simpl.
  split; [done|]. by apply comprehension_Ok.
Qed.

(** The adjacency cell passes exactly when every two-qubit operation acts
    on two grid-adjacent qubits. *)
Lemma cell_adjacency_Ok (c : Circuit GridQubit.t) :
  cell_adjacency c = Ok () ↔
  two_qubit_operations_on (λ a b, GridQubit.is_adjacent a b = true) c.
Proof.
  unfold cell_adjacency, two_qubit_operations_on, findall_two_qubit_operations.
  rewrite for_each_Ok, Forall_forall. split.
  - intros Hall op Hin Htwo.
    specialize (Hall op). rewrite list_elem_of_filter in Hall.
    specialize (Hall (conj Htwo Hin)). unfold assert_adjacent in Hall.
    destruct (qubits op) as [|a [|b [|??]]]; try done.
    exists a, b. split; [done|]. by apply (py_assert_Ok _ AssertAdjacent ()).
  - intros Hall op [Htwo Hin]%list_elem_of_filter.
    destruct (Hall op Hin Htwo) as (a & b & Hq & Hadj).
    unfold assert_adjacent. rewrite Hq. by apply py_assert_Ok.
Qed.

(** C2: in a run that has got past the placement and routing cell (so past
    [assert valid]) and has built [routed_circuit], every operation of
    [routed_circuit] with a two-qubit gate acts on two qubits of the device
    joined by an edge of the device graph; and when the edges of that graph
    join grid-adjacent qubits only, the adjacency cell passes.  pytket
    enters through [connectivity_contract]. *)
Theorem routed_two_qubit_operations_adjacent (L : Libraries)
    (tr : list Cell) (st : Routed) :
  connectivity_contract L →
  cells_to_routing L = (tr, Ok st) →
  two_qubit_operations_on
    (λ a b, a ∈ device_qubit_set L ∧ b ∈ device_qubit_set L ∧
            adjacent_on_graph (dev_graph_edges L) a b)
    (r_routed_circuit st) ∧
  (Forall (λ e, GridQubit.is_adjacent e.1 e.2 = true) (dev_graph_edges L) →
   cell_adjacency (r_routed_circuit st) = Ok ()).
Proof.
  intros Hcontract Hrun.
  apply cells_to_routing_Ok in Hrun
    as (_ & Hi2q & Hq2i & Harc & Hunit & _ & _ & Hrc).
  apply cell_passes_Ok in Hunit as [_ Hvalid].
  specialize (Hcontract _ _ Hvalid).
  assert (two_qubit_operations_on
    (λ a b, a ∈ device_qubit_set L ∧ b ∈ device_qubit_set L ∧
            adjacent_on_graph (dev_graph_edges L) a b)
    (r_routed_circuit st)) as Hgraph.
  { intros op' Hin' Htwo. unfold cell_routed_circuit in Hrc.
    destruct (transform_qubits_elem _ _ _ _ Hrc Hin') as (op & Hin & Hgate & Hqs).
    rewrite Hgate in Htwo.
    destruct (Hcontract op Hin Htwo) as ([i] & [j] & Hq & Hcoupled). simpl in *.
    rewrite Hq in Hqs.
    apply Forall2_cons_inv_l in Hqs as (a & qs & Ha & Hqs & Hq').
    apply Forall2_cons_inv_l in Hqs as (b & qs' & Hb & Hqs & ->).
    apply Forall2_nil_inv_l in Hqs as ->.
    exists a, b. split; [done|].
    apply list_getitem_Ok in Ha, Hb. simpl in *. rewrite Hi2q in Ha, Hb.
    split; [apply index_to_qubit_elem; by eapply list_elem_of_lookup_2|].
    split; [apply index_to_qubit_elem; by eapply list_elem_of_lookup_2|].
    assert (∀ i j a b, (i, j) ∈ r_tk_device st →
              index_to_qubit (device_qubit_set L) !! i = Some a →
              index_to_qubit (device_qubit_set L) !! j = Some b →
              (a, b) ∈ dev_graph_edges L) as Hedge.
    { clear -Harc Hq2i. intros i j a b Hij Ha Hb.
      destruct (_qubit_index_edges_elem _ _ _ _ _ Harc Hij) as (a' & b' & He & Ha' & Hb').
      rewrite Hq2i in Ha', Hb'. apply qubit_to_index_lookup in Ha', Hb'.
      by simplify_eq. }
    destruct Hcoupled as [Hij|Hji]; [left|right]; by eapply Hedge. }
  split; [done|].
  intros Hgrid. apply cell_adjacency_Ok. intros op Hin Htwo.
  destruct (Hgraph op Hin Htwo) as (a & b & Hq & _ & _ & Hadj).
  exists a, b. split; [done|]. rewrite Forall_forall in Hgrid.
  destruct Hadj as [Hab|Hba].
  - apply (Hgrid _ Hab).
  - specialize (Hgrid _ Hba). simpl in Hgrid.
    unfold GridQubit.is_adjacent in *. apply bool_decide_eq_true in Hgrid.
    apply bool_decide_eq_true. lia.
Qed.

(** ** The assertions of a run *)

Lemma tk_to_i_Ok (tk : Node.t) (i : nat) :
  tk_to_i tk = Ok i → single_component tk.
Proof.
  unfold tk_to_i, single_component. intros Hi.
  apply py_bind_Ok in Hi as ([] & Hlen & _).
  by apply py_assert_Ok, bool_decide_eq_true in Hlen.
Qed.

Lemma decode_map_Ok_single (i2q : list GridQubit.t) (m : QubitMap)
    (d : gmap LineQubit.t GridQubit.t) :
  decode_map i2q m = Ok d → single_component_map m.
Proof.
  unfold decode_map. intros Hd. apply py_bind_Ok in Hd as (items & Hitems & _).
  apply comprehension_Ok in Hitems. unfold single_component_map.
  apply Forall_forall. intros n Hn. apply list_elem_of_lookup in Hn as [k Hk].
  destruct (Forall2_lookup_l _ _ _ _ _ Hitems Hk) as (kv & _ & Hkv).
  apply py_bind_Ok in Hkv as (i & Hi & Hkv).
  apply py_bind_Ok in Hkv as (j & Hj & _).
  split; by eapply tk_to_i_Ok.
Qed.

Lemma notebook_from_routing (L : Libraries) (tr : list Cell) (st : Routed) :
  cells_to_routing L = (tr, Ok st) →
  notebook L =
    match cell_adjacency (r_routed_circuit st) with
    | Ok _ => (tr ++ [CellAdjacency; CellEquivalence], cell_equivalence L st)
    | Raise e => (tr ++ [CellAdjacency], Raise e)
    end.
Proof.
  intros Hrun. unfold notebook. rewrite Hrun. rewrite run_bind_Ok_l.
  unfold cell. destruct (cell_adjacency (r_routed_circuit st)) as [[]|e]; simpl; done.
Qed.

Lemma notebook_Raise_early (L : Libraries) (tr : list Cell) (e : Exn) :
  cells_to_routing L = (tr, Raise e) → notebook L = (tr, Raise e).
Proof. intros Hrun. unfold notebook. by rewrite Hrun. Qed.

Lemma cell_equivalence_Ok (L : Libraries) (st : Routed) (res : Circuit GridQubit.t) :
  cell_equivalence L st = Ok res ↔
  ∃ iqs perm,
    permutation_of_maps (r_initial_map st) (r_final_map st) circuit_qubits
      = Ok (iqs, perm) ∧
    res = r_routed_circuit st ++ [permute_gate iqs perm] ∧
    allclose_up_to_global_phase L (circuit L) circuit_qubits res iqs = true.
Proof.
  unfold cell_equivalence. rewrite py_bind_Ok. split.
  - intros ([iqs perm] & Hperm & Hrest).
    apply py_bind_Ok in Hrest as ([] & Hclose & [= <-]).
    apply py_assert_Ok in Hclose. by exists iqs, perm.
  - intros (iqs & perm & Hperm & -> & Hclose). exists (iqs, perm).
    split; [done|]. by rewrite Hclose.
Qed.

(** C5, as the code has it: a run meets four assertions, not two.  A run
    that completes has passed [assert valid] on the routed unit, the
    index-length assertion of [tk_to_i] on every node of both qubit maps,
    the adjacency assertion on every two-qubit operation of the routed
    circuit, and the comparison of the unitaries. *)
Theorem completed_run_assertions (L : Libraries) (tr : list Cell)
    (res : Circuit GridQubit.t) :
  notebook L = (tr, Ok res) →
  tr = routing_cells ++ [CellAdjacency; CellEquivalence] ∧
  ∃ st,
    cells_to_routing L = (routing_cells, Ok st) ∧
    check_all_predicates (r_unit st) = true ∧
    single_component_map (cu_initial_map (r_unit st)) ∧
    single_component_map (cu_final_map (r_unit st)) ∧
    two_qubit_operations_on (λ a b, GridQubit.is_adjacent a b = true)
      (r_routed_circuit st) ∧
    ∃ iqs perm,
      permutation_of_maps (r_initial_map st) (r_final_map st) circuit_qubits
        = Ok (iqs, perm) ∧
      res = r_routed_circuit st ++ [permute_gate iqs perm] ∧
      allclose_up_to_global_phase L (circuit L) circuit_qubits res iqs = true.
Proof.
  intros Hrun.
  destruct (cells_to_routing L) as [tr0 [st|e]] eqn:Hrouting.
  - pose proof (cells_to_routing_Ok _ _ _ Hrouting)
      as (-> & _ & _ & _ & Hunit & Him & Hfm & _).
    rewrite (notebook_from_routing _ _ _ Hrouting) in Hrun.
    destruct (cell_adjacency (r_routed_circuit st)) as [[]|e] eqn:Hadj; [|done].
    injection Hrun as <- Hequiv. split; [done|]. exists st.
    split; [done|]. split.
    { apply cell_passes_Ok in Hunit as [-> Hvalid].
      by rewrite check_routed_unit. }
    split; [by eapply decode_map_Ok_single|].
    split; [by eapply decode_map_Ok_single|].
    split; [by apply cell_adjacency_Ok|].
    by apply cell_equivalence_Ok.
  - by rewrite (notebook_Raise_early _ _ _ Hrouting) in Hrun.
Qed.

(** ** The unit after the passes *)




(** C6: no handler stands between an assertion and the top of the run.
    When the adjacency assertion fails, the run ends in the adjacency cell
    with that [AssertionError] and the last cell is never entered; when the
    comparison of the unitaries fails, the run ends in the last cell with
    that [AssertionError]; in both cases the run yields no value. *)
Theorem failed_assertion_halts (L : Libraries) (tr : list Cell) (st : Routed) :
  cells_to_routing L = (tr, Ok st) →
  (cell_adjacency (r_routed_circuit st) = Raise (AssertionError AssertAdjacent) →
   notebook L = (tr ++ [CellAdjacency], Raise (AssertionError AssertAdjacent)) ∧
   CellEquivalence ∉ (notebook L).1) ∧
  (cell_adjacency (r_routed_circuit st) = Ok () →
   cell_equivalence L st = Raise (AssertionError AssertAllclose) →
   notebook L = (tr ++ [CellAdjacency; CellEquivalence],
                 Raise (AssertionError AssertAllclose))).
Proof.
  intros Hrun. rewrite (notebook_from_routing _ _ _ Hrun).
  apply cells_to_routing_Ok in Hrun as [-> _]. split.
  - intros ->. split; [done|]. simpl. unfold routing_cells. intros Hin.
    repeat (apply elem_of_cons in Hin as [Heq|Hin]; [discriminate Heq|]).
    by apply elem_of_nil in Hin.
  - by intros -> ->.
Qed.

Lemma cell_equivalence_assertion (L : Libraries) (st : Routed)
    (iqs : list GridQubit.t) (perm : list nat) :
  permutation_of_maps (r_initial_map st) (r_final_map st) circuit_qubits
    = Ok (iqs, perm) →
  allclose_up_to_global_phase L (circuit L) circuit_qubits
    (r_routed_circuit st ++ [permute_gate iqs perm]) iqs = false →
  cell_equivalence L st = Raise (AssertionError AssertAllclose).
Proof. intros Hperm Hclose. unfold cell_equivalence. by rewrite Hperm; simpl; rewrite Hclose. Qed.

Lemma cell_adjacency_assertion (c : Circuit GridQubit.t) (s : Assertion) :
  cell_adjacency c = Raise (AssertionError s) →
  s = AssertAdjacent ∧
  ∃ op a b, op ∈ c ∧ is_two_qubit_gate (gate op) = true ∧
            qubits op = [a; b] ∧ GridQubit.is_adjacent a b = false.
Proof.
  unfold cell_adjacency, findall_two_qubit_operations.
  intros (op & [Htwo Hin]%list_elem_of_filter & Hop)%for_each_Raise.
  unfold assert_adjacent in Hop.
  destruct (qubits op) as [|a [|b [|??]]] eqn:Hq; try done.
  unfold py_assert in Hop.
  destruct (GridQubit.is_adjacent a b) eqn:Hadj; [done|].
  injection Hop as <-. split; [done|]. by exists op, a, b.
Qed.

Example notebook_sample_run :
  notebook sample_run =
  (routing_cells ++ [CellAdjacency; CellEquivalence],
   Ok [ {| gate := LibraryGate "ZZ" true; qubits := [grid 0 0; grid 0 1] |};
        {| gate := LibraryGate "Rx" false; qubits := [grid 0 0] |};
        {| gate := LibraryGate "ZZ" true; qubits := [grid 0 2; grid 1 2] |};
        {| gate := LibraryGate "Rx" false; qubits := [grid 1 4] |};
        {| gate := LibraryGate "SWAP" true; qubits := [grid 0 0; grid 0 1] |};
        permute_gate ((r ← [0; 1]; c ← seq 0 5; [grid r c]))
                     [1; 0; 2; 3; 4; 5; 6; 7; 8; 9] ]).
Proof. vm_compute. reflexivity. Qed.

Example notebook_sample_run_unrouted :
  notebook sample_run_unrouted =
  ([CellExampleCircuit; CellIndexTables; CellTketDevice; CellPasses],
   Raise (AssertionError AssertValid)).
Proof. vm_compute. reflexivity. Qed.

Example notebook_sample_run_diagonal :
  notebook sample_run_diagonal =
  (routing_cells ++ [CellAdjacency], Raise (AssertionError AssertAdjacent)).
Proof. vm_compute. reflexivity. Qed.

Example notebook_sample_run_different :
  notebook sample_run_different =
  (routing_cells ++ [CellAdjacency; CellEquivalence],
   Raise (AssertionError AssertAllclose)).
Proof. vm_compute. reflexivity. Qed.

Lemma sample_connectivity_contract (c : Circuit LineQubit.t)
    (edges : list (GridQubit.t * GridQubit.t)) (close : bool) :
  connectivity_contract (sample_libraries c edges close).
Proof.
  intros arc tkc Hpred op Hin Htwo. simpl in *.
  unfold sample_ConnectivityPredicate in Hpred.
  rewrite forallb_forall in Hpred. apply list_elem_of_In, Hpred in Hin.
  rewrite Htwo in Hin. simpl in Hin.
  destruct (qubits op) as [|a [|b [|??]]]; try done.
  exists a, b. split; [done|]. by apply bool_decide_eq_true in Hin.
Qed.

Lemma routed_two_qubit_operations_adjacent_witness :
  ∃ st,
    cells_to_routing sample_run = (routing_cells, Ok st) ∧
    two_qubit_operations_on
      (λ a b, a ∈ sample_grid_device ∧ b ∈ sample_grid_device ∧
              adjacent_on_graph sample_grid_edges a b)
      (r_routed_circuit st) ∧
    (Forall (λ e, GridQubit.is_adjacent e.1 e.2 = true) sample_grid_edges →
     cell_adjacency (r_routed_circuit st) = Ok ()).
Proof.
  destruct (cells_to_routing sample_run) as [tr [st|e]] eqn:Hrun;
    [|vm_compute in Hrun; discriminate Hrun].
  pose proof (cells_to_routing_Ok _ _ _ Hrun) as [-> _].
  exists st. split; [reflexivity|].
  exact (routed_two_qubit_operations_adjacent sample_run routing_cells st
           (sample_connectivity_contract _ _ _) Hrun).
Defined.


(** C5 as stated fails: a run can end at an assertion that is neither the
    adjacency assertion nor the comparison of the unitaries. *)
Lemma other_assertion_reached :
  ¬ (∀ L tr site, notebook L = (tr, Raise (AssertionError site)) →
       site = AssertAdjacent ∨ site = AssertAllclose).
Proof.
  intros Honly.
  destruct (Honly sample_run_unrouted
              [CellExampleCircuit; CellIndexTables; CellTketDevice; CellPasses]
              AssertValid notebook_sample_run_unrouted) as [Hsite|Hsite];
    discriminate Hsite.
Qed.

Lemma completed_run_assertions_witness :
  ∃ st,
    cells_to_routing sample_run = (routing_cells, Ok st) ∧
    check_all_predicates (r_unit st) = true ∧
    single_component_map (cu_initial_map (r_unit st)) ∧
    single_component_map (cu_final_map (r_unit st)) ∧
    two_qubit_operations_on (λ a b, GridQubit.is_adjacent a b = true)
      (r_routed_circuit st) ∧
    ∃ iqs perm,
      permutation_of_maps (r_initial_map st) (r_final_map st) circuit_qubits
        = Ok (iqs, perm) ∧
      allclose_up_to_global_phase sample_run (circuit sample_run) circuit_qubits
        (r_routed_circuit st ++ [permute_gate iqs perm]) iqs = true.
Proof.
  destruct (notebook sample_run) as [tr [res|e]] eqn:Hrun;
    [|vm_compute in Hrun; discriminate Hrun].
  destruct (completed_run_assertions sample_run tr res Hrun)
    as (_ & st & Hst & Hvalid & Him & Hfm & Hadj & iqs & perm & Hperm & -> & Hclose).
  exists st. repeat (split; [assumption|]). by exists iqs, perm.
Defined.

Lemma failed_assertion_halts_witness :
  (notebook sample_run_diagonal
     = (routing_cells ++ [CellAdjacency], Raise (AssertionError AssertAdjacent)) ∧
   CellEquivalence ∉ (notebook sample_run_diagonal).1) ∧
  notebook sample_run_different
    = (routing_cells ++ [CellAdjacency; CellEquivalence],
       Raise (AssertionError AssertAllclose)).
Proof.
  split.
  - destruct (cells_to_routing sample_run_diagonal) as [tr [st|e]] eqn:Hrun;
      [|vm_compute in Hrun; discriminate Hrun].
    pose proof (cells_to_routing_Ok _ _ _ Hrun) as [-> _].
    apply (proj1 (failed_assertion_halts sample_run_diagonal routing_cells st Hrun)).
    assert ((cells_to_routing sample_run_diagonal).2 = Ok st) as Hst
      by (by rewrite Hrun).
    clear Hrun. revert Hst. vm_compute. intros [= <-]. reflexivity.
  - destruct (cells_to_routing sample_run_different) as [tr [st|e]] eqn:Hrun;
      [|vm_compute in Hrun; discriminate Hrun].
    pose proof (cells_to_routing_Ok _ _ _ Hrun) as [-> _].
    assert ((cells_to_routing sample_run_different).2 = Ok st) as Hst
      by (by rewrite Hrun).
    apply (proj2 (failed_assertion_halts sample_run_different routing_cells st Hrun)).
    + clear Hrun. revert Hst. vm_compute. intros [= <-]. reflexivity.
    + clear Hrun. revert Hst. vm_compute. intros [= <-]. reflexivity.
Defined.

(** ** The workflow trigger *)

(** C7, as the file has it: the workflow runs on a push to the branch
    [master] and on nothing else. *)
Theorem deploy_docs_trigger (e : Workflow.Event) :
  Workflow.triggers Workflow.deploy_docs e = true ↔
  e = {| Workflow.event_name := "push"; Workflow.ref := Workflow.Branch "master" |}.
Proof.
  destruct e as [ev r]. unfold Workflow.triggers, Workflow.deploy_docs. simpl.
  rewrite orb_false_r, andb_true_iff, bool_decide_eq_true. split.
  - intros [<- Hr]. destruct r as [b|t]; simpl in Hr; [|done].
    rewrite orb_false_r in Hr. unfold Workflow.branch_matches in Hr.
    by apply bool_decide_eq_true in Hr as <-.
  - by intros [= <- ->].
Qed.

(** C7 as stated fails: a push to a branch named [main] does not start the
    workflow. *)
Lemma deploy_docs_not_on_main :
  Workflow.triggers Workflow.deploy_docs
    {| Workflow.event_name := "push"; Workflow.ref := Workflow.Branch "main" |}
  = false.
Proof. reflexivity. Qed.

(** * Further properties of the notebook's code *)

(** ** More on dicts built by comprehension *)

Section dict_of_items_duplicates.
Context `{Countable K} {V : Type}.
Implicit Types (items : list (K * V)) (m : gmap K V).

Lemma dict_of_items_elem items k v :
  dict_of_items items !! k = Some v → (k, v) ∈ items.
Proof.
  unfold dict_of_items. intros [Hin|Hk]%fold_insert_Some; [done|].
  by rewrite lookup_empty in Hk.
Qed.

Lemma fold_insert_is_Some items m k :
  k ∈ items.*1 →
  is_Some (fold_left (λ m kv, <[kv.1 := kv.2]> m) items m !! k).
Proof.
  revert m. induction items as [|[k' v'] items IH]; intros m Hk; simpl in *.
  - by apply elem_of_nil in Hk.
  - destruct (decide (k ∈ items.*1)) as [Hin|Hnotin]; [by apply IH|].
    apply elem_of_cons in Hk as [->|Hk]; [|done].
    rewrite fold_insert_notin by done. rewrite lookup_insert_eq. by eexists.
Qed.

Lemma dict_of_items_is_Some items k :
  is_Some (dict_of_items items !! k) ↔ k ∈ items.*1.
Proof.
  split.
  - intros [v Hv]. apply dict_of_items_elem in Hv.
    apply list_elem_of_fmap. by exists (k, v).
  - apply fold_insert_is_Some.
Qed.

(** The last item with a given key is the one the dict keeps. *)
Lemma dict_of_items_last items items' k v :
  k ∉ items'.*1 → dict_of_items (items ++ (k, v) :: items') !! k = Some v.
Proof.
  intros Hk. unfold dict_of_items. rewrite fold_left_app. simpl.
  rewrite fold_insert_notin by done. apply lookup_insert_eq.
Qed.
End dict_of_items_duplicates.

Lemma Forall2_equiv {A B} (P Q : A → B → Prop) (l : list A) (k : list B) :
  (∀ a b, P a b ↔ Q a b) → Forall2 P l k ↔ Forall2 Q l k.
Proof.
  intros HPQ. split; intros HF; (eapply Forall2_impl; [exact HF|]);
    intros a b; apply HPQ.
Qed.

(** ** The architecture handed to tket *)

Lemma _qubit_index_edges_Forall2 (device : gset GridQubit.t)
    (edges : list (GridQubit.t * GridQubit.t)) (arc : Architecture) :
  _qubit_index_edges (qubit_to_index device) edges = Ok arc ↔
  Forall2 (λ e ij, index_to_qubit device !! ij.1 = Some e.1 ∧
                   index_to_qubit device !! ij.2 = Some e.2) edges arc.
Proof.
  unfold _qubit_index_edges. rewrite comprehension_Ok.
  apply Forall2_equiv. intros [a b] [i j]. simpl.
  rewrite <- !qubit_to_index_lookup. unfold dict_getitem. split.
  - intros Hab.
    destruct (qubit_to_index device !! a) as [i'|]; simpl in Hab; [|done].
    destruct (qubit_to_index device !! b) as [j'|]; simpl in Hab; [|done].
    by injection Hab as -> ->.
  - by intros [-> ->].
Qed.

Lemma _qubit_index_edges_pair (device : gset GridQubit.t)
    (edges : list (GridQubit.t * GridQubit.t)) (arc : Architecture) (i j : nat) :
  _qubit_index_edges (qubit_to_index device) edges = Ok arc →
  (i, j) ∈ arc ↔
  ∃ a b, index_to_qubit device !! i = Some a ∧
         index_to_qubit device !! j = Some b ∧ (a, b) ∈ edges.
Proof.
  intros HF. apply _qubit_index_edges_Forall2 in HF. split.
  - intros [n Hn]%list_elem_of_lookup.
    destruct (Forall2_lookup_r _ _ _ _ _ HF Hn) as ([a b] & He & Ha & Hb).
    exists a, b. split; [done|]. split; [done|]. by eapply list_elem_of_lookup_2.
  - intros (a & b & Ha & Hb & [n Hn]%list_elem_of_lookup).
    destruct (Forall2_lookup_l _ _ _ _ _ HF Hn) as ([i' j'] & Hij & Ha' & Hb').
    simpl in *.
    rewrite (NoDup_lookup _ i i' a (index_to_qubit_NoDup device) Ha Ha').
    rewrite (NoDup_lookup _ j j' b (index_to_qubit_NoDup device) Hb Hb').
    by eapply list_elem_of_lookup_2.
Qed.

(** X1: the architecture has one index pair per edge of the device graph,
    in the order of the edges, and reading the pairs back through
    [index_to_qubit] gives the edges again. *)
Theorem architecture_round_trip (device : gset GridQubit.t)
    (edges : list (GridQubit.t * GridQubit.t)) (arc : Architecture) :
  _qubit_index_edges (qubit_to_index device) edges = Ok arc →
  length arc = length edges ∧
  comprehension
    (λ ij, a ← list_getitem (index_to_qubit device) ij.1;
           b ← list_getitem (index_to_qubit device) ij.2;
           mret (a, b))
    arc = Ok edges.
Proof.
  intros HF. apply _qubit_index_edges_Forall2 in HF. split.
  - symmetry. by eapply Forall2_length.
  - apply comprehension_Ok. apply Forall2_flip.
    eapply Forall2_impl; [exact HF|]. intros [a b] [i j] [Ha Hb]. simpl in *.
    unfold list_getitem. by rewrite Ha, Hb.
Qed.

(** X2: building the architecture succeeds exactly when both ends of every
    edge of the device graph are in the device's qubit set; the only
    exception it can raise is the [KeyError] of [qubit_to_index[...]]. *)
Theorem architecture_outcome (device : gset GridQubit.t)
    (edges : list (GridQubit.t * GridQubit.t)) :
  ((∃ arc, _device_to_tket_device (qubit_to_index device) edges = Ok arc) ↔
   Forall (λ e, e.1 ∈ device ∧ e.2 ∈ device) edges) ∧
  (∀ e, _device_to_tket_device (qubit_to_index device) edges = Raise e →
        e = KeyError).
Proof.
  unfold _device_to_tket_device. split; [split|].
  - intros [arc HF]. apply _qubit_index_edges_Forall2 in HF.
    apply Forall_forall. intros e [n Hn]%list_elem_of_lookup.
    destruct (Forall2_lookup_l _ _ _ _ _ HF Hn) as (ij & _ & Ha & Hb).
    split; apply index_to_qubit_elem; by eapply list_elem_of_lookup_2.
  - intros Hall. apply comprehension_total.
    eapply Forall_impl; [exact Hall|]. intros [a b] [Ha Hb]. simpl in *.
    apply index_to_qubit_elem, list_elem_of_lookup in Ha as [i Hi].
    apply index_to_qubit_elem, list_elem_of_lookup in Hb as [j Hj].
    apply qubit_to_index_lookup in Hi, Hj.
    exists (i, j). unfold dict_getitem. by rewrite Hi, Hj.
  - intros e (ed & _ & Hed)%comprehension_Raise. unfold dict_getitem in Hed.
    destruct (qubit_to_index device !! ed.1); simpl in Hed; [|by injection Hed].
    destruct (qubit_to_index device !! ed.2); simpl in Hed; [done|by injection Hed].
Qed.

(** X3: tket is given the device graph itself, renamed: two indices are
    coupled in the architecture exactly when the qubits that
    [index_to_qubit] holds at these indices are joined in the device
    graph. *)
Theorem architecture_is_device_graph (device : gset GridQubit.t)
    (edges : list (GridQubit.t * GridQubit.t)) (arc : Architecture) (i j : nat) :
  _qubit_index_edges (qubit_to_index device) edges = Ok arc →
  coupled arc i j ↔
  ∃ a b, index_to_qubit device !! i = Some a ∧
         index_to_qubit device !! j = Some b ∧
         adjacent_on_graph edges a b.
Proof.
  intros Harc. unfold coupled, adjacent_on_graph.
  rewrite (_qubit_index_edges_pair _ _ _ i j Harc).
  rewrite (_qubit_index_edges_pair _ _ _ j i Harc). split.
  - intros [(a & b & Ha & Hb & He)|(b & a & Hb & Ha & He)];
      exists a, b; (split; [done|]); (split; [done|]); [by left|by right].
  - intros (a & b & Ha & Hb & [He|He]); [left|right].
    + by exists a, b.
    + by exists b, a.
Qed.

Lemma architecture_round_trip_witness :
  ∃ arc,
    _qubit_index_edges (qubit_to_index sample_grid_device) sample_grid_edges = Ok arc ∧
    length arc = length sample_grid_edges ∧
    comprehension
      (λ ij, a ← list_getitem (index_to_qubit sample_grid_device) ij.1;
             b ← list_getitem (index_to_qubit sample_grid_device) ij.2;
             mret (a, b))
      arc = Ok sample_grid_edges.
Proof.
  destruct (_qubit_index_edges (qubit_to_index sample_grid_device) sample_grid_edges)
    as [arc|e] eqn:Harc; [|vm_compute in Harc; discriminate Harc].
  exists arc. split; [reflexivity|].
  exact (architecture_round_trip sample_grid_device sample_grid_edges arc Harc).
Defined.

Lemma architecture_outcome_witness :
  ∃ arc, _device_to_tket_device (qubit_to_index sample_grid_device) sample_grid_edges
         = Ok arc.
Proof.
  apply (proj1 (architecture_outcome sample_grid_device sample_grid_edges)).
  unfold sample_grid_edges. simpl.
  repeat (apply Forall_cons; split; [split; vm_compute; reflexivity|]).
  apply Forall_nil_2.
Defined.

Lemma architecture_is_device_graph_witness :
  ∃ arc,
    _qubit_index_edges (qubit_to_index sample_grid_device) sample_grid_edges = Ok arc ∧
    (coupled arc 2 7 ↔
     ∃ a b, index_to_qubit sample_grid_device !! 2 = Some a ∧
            index_to_qubit sample_grid_device !! 7 = Some b ∧
            adjacent_on_graph sample_grid_edges a b).
Proof.
  destruct (_qubit_index_edges (qubit_to_index sample_grid_device) sample_grid_edges)
    as [arc|e] eqn:Harc; [|vm_compute in Harc; discriminate Harc].
  exists arc. split; [reflexivity|].
  exact (architecture_is_device_graph sample_grid_device sample_grid_edges arc 2 7 Harc).
Defined.

(** ** More on decoding the qubit maps *)

Lemma tk_to_i_Ok_iff (tk : Node.t) (i : nat) :
  tk_to_i tk = Ok i ↔ Node.index tk = [i].
Proof.
  split; [|apply tk_to_i_single].
  intros Hi. pose proof (tk_to_i_Ok _ _ Hi) as [i' Hi']%single_component_inv.
  rewrite (tk_to_i_single _ _ Hi') in Hi. by injection Hi as <-.
Qed.

Lemma tk_to_i_Raise (tk : Node.t) (e : Exn) :
  tk_to_i tk = Raise e → e = AssertionError AssertIndexLen.
Proof.
  unfold tk_to_i, py_assert.
  destruct (Node.index tk) as [|i [|??]]; simpl; try done; by intros [= <-].
Qed.

(** One item of the comprehension in [decode_map]. *)
Lemma decode_item_Ok (i2q : list GridQubit.t) (n : Node.t * Node.t)
    (kv : LineQubit.t * GridQubit.t) :
  (k ← tk_to_i n.1; j ← tk_to_i n.2; q ← list_getitem i2q j;
   mret (LineQubit.mk k, q)) = Ok kv ↔
  Node.index n.1 = [LineQubit.x kv.1] ∧
  ∃ j, Node.index n.2 = [j] ∧ i2q !! j = Some kv.2.
Proof.
  destruct kv as [[k] q]. simpl. rewrite py_bind_Ok. split.
  - intros (k' & Hk & Hrest). apply py_bind_Ok in Hrest as (j & Hj & Hrest).
    apply py_bind_Ok in Hrest as (q' & Hq & [= <- <-]).
    apply tk_to_i_Ok_iff in Hk, Hj. apply list_getitem_Ok in Hq.
    split; [done|]. by exists j.
  - intros (Hk & j & Hj & Hq). exists k. split; [by apply tk_to_i_Ok_iff|].
    apply py_bind_Ok. exists j. split; [by apply tk_to_i_Ok_iff|].
    apply py_bind_Ok. exists q. split; [by apply list_getitem_Ok|done].
Qed.

Lemma decode_map_Ok_items (i2q : list GridQubit.t) (m : QubitMap)
    (d : gmap LineQubit.t GridQubit.t) :
  decode_map i2q m = Ok d ↔
  ∃ items,
    Forall2 (λ n kv, Node.index n.1 = [LineQubit.x kv.1] ∧
                     ∃ j, Node.index n.2 = [j] ∧ i2q !! j = Some kv.2) m items ∧
    d = dict_of_items items.
Proof.
  unfold decode_map. rewrite py_bind_Ok. split.
  - intros (items & Hitems & [= <-]). exists items. split; [|done].
    apply comprehension_Ok in Hitems.
    eapply Forall2_impl; [exact Hitems|]. intros n kv. apply decode_item_Ok.
  - intros (items & Hitems & ->). exists items. split; [|done].
    apply comprehension_Ok.
    eapply Forall2_impl; [exact Hitems|]. intros n kv. apply decode_item_Ok.
Qed.

(** X4: decoding a qubit map succeeds exactly when every node of the map has
    a one-component index and every device-side index is below
    [len(index_to_qubit)]; it can raise the [AssertionError] of [tk_to_i]
    and the [IndexError] of [index_to_qubit[...]], and nothing else. *)
Theorem decode_map_outcome (i2q : list GridQubit.t) (m : QubitMap) :
  ((∃ d, decode_map i2q m = Ok d) ↔
   single_component_map m ∧ targets_in_range i2q m) ∧
  (∀ e, decode_map i2q m = Raise e →
        e = AssertionError AssertIndexLen ∨ e = IndexError).
Proof.
  split; [split|].
  - intros [d Hd]. split; [by eapply decode_map_Ok_single|].
    apply decode_map_Ok_items in Hd as (items & HF & _).
    unfold targets_in_range. apply Forall_forall.
    intros n [i Hi]%list_elem_of_lookup.
    destruct (Forall2_lookup_l _ _ _ _ _ HF Hi) as (kv & _ & _ & j & Hj & Hq).
    rewrite Hj. apply Forall_singleton. by eapply lookup_lt_Some.
  - intros [Hsingle Hrange]. by apply decode_map_total.
  - intros e. unfold decode_map.
    destruct (comprehension _ m) as [items|e'] eqn:Hitems; [done|].
    simpl. intros [= ->].
    apply comprehension_Raise in Hitems as (n & _ & Hn).
    destruct (tk_to_i n.1) as [k|e1] eqn:Hk; simpl in Hn;
      [|injection Hn as <-; left; by eapply tk_to_i_Raise].
    destruct (tk_to_i n.2) as [j|e2] eqn:Hj; simpl in Hn;
      [|injection Hn as <-; left; by eapply tk_to_i_Raise].
    unfold list_getitem in Hn. destruct (i2q !! j); simpl in Hn; [done|].
    injection Hn as <-. by right.
Qed.

(** X5: what a decoded map holds.  Every entry [LineQubit(k) -> q] comes
    from an item whose tket qubit has index [k] and whose node has the
    index that [qubit_to_index] gives to [q]; and when no two tket qubits
    of the map share an index, every item of the map is found again in the
    decoded map in this way. *)
Theorem decode_map_entries (device : gset GridQubit.t) (m : QubitMap)
    (d : gmap LineQubit.t GridQubit.t) :
  decode_map (index_to_qubit device) m = Ok d →
  (∀ k q, d !! LineQubit.mk k = Some q →
     ∃ n j, n ∈ m ∧ Node.index n.1 = [k] ∧ Node.index n.2 = [j] ∧
            qubit_to_index device !! q = Some j) ∧
  (NoDup ((λ n, Node.index n.1) <$> m) →
   ∀ n, n ∈ m →
     ∃ k j q, Node.index n.1 = [k] ∧ Node.index n.2 = [j] ∧
              d !! LineQubit.mk k = Some q ∧
              qubit_to_index device !! q = Some j).
Proof.
  intros (items & HF & ->)%decode_map_Ok_items. split.
  - intros k q [i Hi]%dict_of_items_elem%list_elem_of_lookup.
    destruct (Forall2_lookup_r _ _ _ _ _ HF Hi) as (n & Hn & Hk & j & Hj & Hq).
    exists n, j. split; [by eapply list_elem_of_lookup_2|].
    split; [done|]. split; [done|]. by apply qubit_to_index_lookup.
  - intros Hnd n [i Hi]%list_elem_of_lookup.
    destruct (Forall2_lookup_l _ _ _ _ _ HF Hi) as ([[k] q] & Hkv & Hk & j & Hj & Hq).
    simpl in *. exists k, j, q. split; [done|]. split; [done|].
    split; [|by apply qubit_to_index_lookup].
    apply dict_of_items_lookup; [|by eapply list_elem_of_lookup_2].
    eapply (Forall2_NoDup_inj (λ a b, a = [LineQubit.x b])); [| |exact Hnd].
    + apply Forall2_fmap. eapply Forall2_impl; [exact HF|]. by intros ?? [? _].
    + intros a1 a2 b _ _ -> ->. done.
Qed.

Lemma decode_map_outcome_witness :
  ∃ d, decode_map (index_to_qubit sample_device) sample_map_in_range = Ok d.
Proof.
  apply (proj1 (decode_map_outcome (index_to_qubit sample_device) sample_map_in_range)).
  split.
  - repeat constructor.
  - unfold targets_in_range, sample_map_in_range. simpl.
    repeat constructor; vm_compute; lia.
Defined.

Lemma decode_map_entries_witness :
  ∃ d,
    decode_map (index_to_qubit sample_device) sample_map_in_range = Ok d ∧
    ∃ k j q, Node.index (Node.mk "q" [11]) = [k] ∧
             Node.index (Node.mk "node" [4]) = [j] ∧
             d !! LineQubit.mk k = Some q ∧
             qubit_to_index sample_device !! q = Some j.
Proof.
  destruct (decode_map (index_to_qubit sample_device) sample_map_in_range)
    as [d|e] eqn:Hd; [|vm_compute in Hd; discriminate Hd].
  exists d. split; [reflexivity|].
  refine (proj2 (decode_map_entries sample_device sample_map_in_range d Hd) _
            (Node.mk "q" [11], Node.mk "node" [4]) _).
  - simpl. apply NoDup_cons. split; [|apply NoDup_singleton].
    intros Hin. apply list_elem_of_singleton in Hin. discriminate Hin.
  - unfold sample_map_in_range. apply elem_of_cons. right. apply elem_of_cons. by left.
Defined.

(** ** More on relabelling the routed circuit *)

Lemma transform_qubits_Ok {Q Q'} (f : Q → Py Q') (c : Circuit Q) (c' : Circuit Q') :
  transform_qubits f c = Ok c' ↔
  Forall2 (λ op op', gate op' = gate op ∧
                     Forall2 (λ q q', f q = Ok q') (qubits op) (qubits op')) c c'.
Proof.
  unfold transform_qubits. etrans; [apply comprehension_Ok|].
  apply Forall2_equiv. intros op [g' qs']. simpl. rewrite py_bind_Ok. split.
  - intros (qs & Hqs & [= <- <-]). split; [done|]. by apply comprehension_Ok.
  - intros [-> Hqs]. exists qs'. split; [by apply comprehension_Ok|done].
Qed.

Lemma transform_qubits_Raise {Q Q'} (f : Q → Py Q') (c : Circuit Q) (e : Exn) :
  transform_qubits f c = Raise e →
  ∃ op q, op ∈ c ∧ q ∈ qubits op ∧ f q = Raise e.
Proof.
  unfold transform_qubits. intros (op & Hop & Hraise)%comprehension_Raise.
  destruct (comprehension f (qubits op)) as [qs|e'] eqn:Hqs; simpl in Hraise; [done|].
  injection Hraise as ->.
  apply comprehension_Raise in Hqs as (q & Hq & Hfq). by exists op, q.
Qed.

(** X6: relabelling the routed circuit keeps its shape (as many operations,
    the same gates in the same order), and relabelling the result back
    through [qubit_to_index] gives the circuit that tket returned. *)
Theorem routed_circuit_round_trip (device : gset GridQubit.t)
    (c : Circuit LineQubit.t) (rc : Circuit GridQubit.t) :
  transform_qubits (λ q, list_getitem (index_to_qubit device) (LineQubit.x q)) c
    = Ok rc →
  length rc = length c ∧
  gate <$> rc = gate <$> c ∧
  transform_qubits
    (λ q, i ← dict_getitem (qubit_to_index device) q; mret (LineQubit.mk i)) rc
    = Ok c.
Proof.
  intros HF%transform_qubits_Ok. split; [|split].
  - symmetry. by eapply Forall2_length.
  - apply list_eq_Forall2, Forall2_fmap, Forall2_flip.
    eapply Forall2_impl; [exact HF|]. by intros ?? [-> _].
  - apply transform_qubits_Ok, Forall2_flip.
    eapply Forall2_impl; [exact HF|]. intros op op' [Hg Hqs]. split; [done|].
    apply Forall2_flip. eapply Forall2_impl; [exact Hqs|].
    intros [i] q Hq. simpl in *.
    apply list_getitem_Ok, qubit_to_index_lookup in Hq.
    unfold dict_getitem. by rewrite Hq.
Qed.

(** X7: relabelling succeeds exactly when every qubit of the circuit has an
    [x] below the number of device qubits, and can only raise the
    [IndexError] of [index_to_qubit[q.x]]. *)
Theorem routed_circuit_outcome (device : gset GridQubit.t) (c : Circuit LineQubit.t) :
  ((∃ rc, transform_qubits
            (λ q, list_getitem (index_to_qubit device) (LineQubit.x q)) c = Ok rc) ↔
   Forall (λ op, Forall (λ q, LineQubit.x q < size device) (qubits op)) c) ∧
  (∀ e, transform_qubits
          (λ q, list_getitem (index_to_qubit device) (LineQubit.x q)) c = Raise e →
        e = IndexError).
Proof.
  split; [split|].
  - intros [rc HF%transform_qubits_Ok].
    apply Forall_forall. intros op [n Hn]%list_elem_of_lookup.
    destruct (Forall2_lookup_l _ _ _ _ _ HF Hn) as (op' & _ & _ & Hqs).
    apply Forall_forall. intros q [k Hk]%list_elem_of_lookup.
    destruct (Forall2_lookup_l _ _ _ _ _ Hqs Hk) as (q' & _ & Hq).
    apply list_getitem_Ok, lookup_lt_Some in Hq.
    by rewrite index_to_qubit_length in Hq.
  - intros Hall. unfold transform_qubits. apply comprehension_total.
    eapply Forall_impl; [exact Hall|]. intros op Hop. simpl.
    destruct (comprehension_total
      (λ q, list_getitem (index_to_qubit device) (LineQubit.x q)) (qubits op))
      as [qs Hqs].
    + eapply Forall_impl; [exact Hop|]. intros q Hq. simpl in Hq.
      rewrite <- index_to_qubit_length in Hq.
      apply lookup_lt_is_Some in Hq as [q' Hq']. exists q'.
      by apply list_getitem_Ok.
    + rewrite Hqs. by eexists.
  - intros e (op & q & _ & _ & Hq)%transform_qubits_Raise.
    unfold list_getitem in Hq.
    destruct (index_to_qubit device !! LineQubit.x q); [done|]. by injection Hq.
Qed.

Lemma routed_circuit_round_trip_witness :
  ∃ rc,
    transform_qubits
      (λ q, list_getitem (index_to_qubit sample_grid_device) (LineQubit.x q))
      [on_line "ZZ" true [0; 1]; on_line "Rx" false [9]] = Ok rc ∧
    length rc = 2 ∧
    gate <$> rc = [LibraryGate "ZZ" true; LibraryGate "Rx" false] ∧
    transform_qubits
      (λ q, i ← dict_getitem (qubit_to_index sample_grid_device) q;
            mret (LineQubit.mk i)) rc
    = Ok [on_line "ZZ" true [0; 1]; on_line "Rx" false [9]].
Proof.
  destruct (transform_qubits
      (λ q, list_getitem (index_to_qubit sample_grid_device) (LineQubit.x q))
      [on_line "ZZ" true [0; 1]; on_line "Rx" false [9]]) as [rc|e] eqn:Hrc;
    [|vm_compute in Hrc; discriminate Hrc].
  exists rc. split; [reflexivity|].
  exact (routed_circuit_round_trip sample_grid_device _ rc Hrc).
Defined.

Lemma routed_circuit_outcome_witness :
  ∃ rc,
    transform_qubits
      (λ q, list_getitem (index_to_qubit sample_grid_device) (LineQubit.x q))
      [on_line "ZZ" true [0; 1]; on_line "Rx" false [9]] = Ok rc.
Proof.
  apply (proj1 (routed_circuit_outcome sample_grid_device _)).
  repeat constructor; vm_compute; lia.
Defined.

(** ** More on the adjacency cell *)

Lemma for_each_app {A} (body : A → Py ()) (l1 l2 : list A) :
  for_each body (l1 ++ l2) = (for_each body l1;; for_each body l2).
Proof.
  induction l1 as [|a l1 IH]; simpl; [done|].
  destruct (body a) as [[]|e]; simpl; [exact IH|done].
Qed.

Lemma cell_adjacency_app (c1 c2 : Circuit GridQubit.t) :
  cell_adjacency (c1 ++ c2) = (cell_adjacency c1;; cell_adjacency c2).
Proof.
  unfold cell_adjacency, findall_two_qubit_operations.
  rewrite <- for_each_app. f_equal. apply filter_app.
Qed.

Lemma cell_adjacency_cons (op : Operation GridQubit.t) (c : Circuit GridQubit.t) :
  is_two_qubit_gate (gate op) = true →
  cell_adjacency (op :: c) = (assert_adjacent op;; cell_adjacency c).
Proof.
  intros Htwo. unfold cell_adjacency, findall_two_qubit_operations, Circuit.
  by rewrite filter_cons_True.
Qed.

(** X8: the adjacency loop stops at the first two-qubit operation that is
    not on a grid-adjacent pair, whatever comes after it: with
    [AssertionError] when the operation has two qubits, with the
    [ValueError] of the unpacking [a, b = op.qubits] when it has not. *)
Theorem adjacency_cell_first_failure (pre post : Circuit GridQubit.t)
    (op : Operation GridQubit.t) :
  two_qubit_operations_on (λ a b, GridQubit.is_adjacent a b = true) pre →
  is_two_qubit_gate (gate op) = true →
  (∀ a b, qubits op = [a; b] → GridQubit.is_adjacent a b = false) →
  cell_adjacency (pre ++ op :: post) =
    Raise (if decide (length (qubits op) = 2)
           then AssertionError AssertAdjacent else ValueError).
Proof.
  intros Hpre Htwo Hop. apply cell_adjacency_Ok in Hpre.
  rewrite cell_adjacency_app, Hpre. simpl.
  rewrite cell_adjacency_cons by done.
  unfold assert_adjacent.
  destruct (qubits op) as [|a [|b [|??]]] eqn:Hq; simpl; try done.
  by rewrite (Hop a b eq_refl).
Qed.

Lemma adjacency_cell_first_failure_witness :
  cell_adjacency
    ([ {| gate := LibraryGate "ZZ" true; qubits := [grid 0 0; grid 0 1] |};
       {| gate := LibraryGate "Rx" false; qubits := [grid 1 4] |} ]
     ++ {| gate := LibraryGate "ZZ" true; qubits := [grid 0 0; grid 1 1] |}
     :: [ {| gate := LibraryGate "ZZ" true; qubits := [grid 0 2] |} ])
  = Raise (AssertionError AssertAdjacent).
Proof.
  apply (adjacency_cell_first_failure
           [ {| gate := LibraryGate "ZZ" true; qubits := [grid 0 0; grid 0 1] |};
             {| gate := LibraryGate "Rx" false; qubits := [grid 1 4] |} ]
           [ {| gate := LibraryGate "ZZ" true; qubits := [grid 0 2] |} ]
           {| gate := LibraryGate "ZZ" true; qubits := [grid 0 0; grid 1 1] |}).
  - intros op Hin Htwo.
    apply elem_of_cons in Hin as [->|Hin].
    + exists (grid 0 0), (grid 0 1). split; reflexivity.
    + apply elem_of_cons in Hin as [->|Hin]; [discriminate Htwo|].
      by apply elem_of_nil in Hin.
  - reflexivity.
  - intros a b [= <- <-]. reflexivity.
Defined.

(** ** More on the final permutation *)

Section permutation_of_maps.
Context (initial_map final_map : gmap LineQubit.t GridQubit.t).
Context (cqs : list LineQubit.t).

Lemma final_to_initial_items (items : list (GridQubit.t * GridQubit.t)) :
  comprehension
    (λ cq, k ← dict_getitem final_map cq; v ← dict_getitem initial_map cq; mret (k, v))
    cqs = Ok items ↔
  Forall2 (λ c kv, final_map !! c = Some kv.1 ∧ initial_map !! c = Some kv.2) cqs items.
Proof.
  rewrite comprehension_Ok. apply Forall2_equiv. intros c [k v]. simpl.
  unfold dict_getitem. split.
  - intros Hkv.
    destruct (final_map !! c) as [k'|]; simpl in Hkv; [|done].
    destruct (initial_map !! c) as [v'|]; simpl in Hkv; [|done].
    by injection Hkv as -> ->.
  - by intros [-> ->].
Qed.

Lemma initial_qubits_Ok (iqs : list GridQubit.t) :
  initial_qubits initial_map cqs = Ok iqs ↔
  Forall2 (λ c q, initial_map !! c = Some q) cqs iqs.
Proof.
  unfold initial_qubits. rewrite comprehension_Ok. apply Forall2_equiv.
  intros c q. apply dict_getitem_Ok.
Qed.

Lemma items_values (items : list (GridQubit.t * GridQubit.t)) (iqs : list GridQubit.t) :
  Forall2 (λ c kv, final_map !! c = Some kv.1 ∧ initial_map !! c = Some kv.2) cqs items →
  Forall2 (λ c q, initial_map !! c = Some q) cqs iqs →
  items.*2 = iqs.
Proof.
  intros HR HI. apply list_eq_Forall2.
  apply Forall2_fmap_l.
  revert iqs HI. induction HR as [|c kv cqs' items' [_ Hv] _ IH]; intros iqs HI.
  - apply Forall2_nil_inv_l in HI as ->. constructor.
  - apply Forall2_cons_inv_l in HI as (q & iqs' & Hq & HI & ->).
    constructor; [congruence|by apply IH].
Qed.

(** What the run of the three assignments looks like when it succeeds. *)
Lemma permutation_of_maps_Ok (iqs : list GridQubit.t) (perm : list nat) :
  permutation_of_maps initial_map final_map cqs = Ok (iqs, perm) ↔
  ∃ items,
    Forall2 (λ c kv, final_map !! c = Some kv.1 ∧ initial_map !! c = Some kv.2)
      cqs items ∧
    Forall2 (λ c q, initial_map !! c = Some q) cqs iqs ∧
    Forall2 (λ q j, ∃ v, dict_of_items items !! q = Some v ∧
                         list_index v iqs = Some j) iqs perm.
Proof.
  assert (∀ f2i q j,
    (v ← dict_getitem f2i q; index_method iqs v) = Ok j ↔
    ∃ v : GridQubit.t, (f2i : gmap GridQubit.t GridQubit.t) !! q = Some v ∧
                       list_index v iqs = Some j) as Hstep.
  { intros f2i q j. rewrite py_bind_Ok. unfold index_method.
    split; intros (v & Hv & Hj); exists v.
    - apply dict_getitem_Ok in Hv. split; [done|].
      destruct (list_index v iqs); [by injection Hj as ->|done].
    - split; [by apply dict_getitem_Ok|]. by rewrite Hj. }
  unfold permutation_of_maps, final_to_initial_map, final_permutation.
  rewrite py_bind_Ok. split.
  - intros (f2i & Hf2i & Hrest).
    apply py_bind_Ok in Hf2i as (items & Hitems & [= <-]).
    apply py_bind_Ok in Hrest as (iqs' & Hiqs & Hrest).
    apply py_bind_Ok in Hrest as (perm' & Hperm & [= <- <-]).
    exists items. split; [by apply final_to_initial_items|].
    split; [by apply initial_qubits_Ok|].
    apply comprehension_Ok in Hperm.
    eapply Forall2_impl; [exact Hperm|]. intros q j. apply Hstep.
  - intros (items & Hitems & Hiqs & Hperm).
    exists (dict_of_items items). split.
    { apply py_bind_Ok. exists items. split; [by apply final_to_initial_items|done]. }
    apply py_bind_Ok. exists iqs. split; [by apply initial_qubits_Ok|].
    apply py_bind_Ok. exists perm. split; [|done].
    apply comprehension_Ok.
    eapply Forall2_impl; [exact Hperm|]. intros q j. apply Hstep.
Qed.

(** [.index] never fails in [final_permutation]: what
    [final_to_initial_map] returns is an element of [initial_qubits]. *)
Lemma final_to_initial_value (items : list (GridQubit.t * GridQubit.t))
    (iqs : list GridQubit.t) (q v : GridQubit.t) :
  Forall2 (λ c kv, final_map !! c = Some kv.1 ∧ initial_map !! c = Some kv.2) cqs items →
  Forall2 (λ c q, initial_map !! c = Some q) cqs iqs →
  dict_of_items items !! q = Some v →
  ∃ j, list_index v iqs = Some j.
Proof.
  intros HR HI Hv. apply list_index_elem.
  rewrite <- (items_values _ _ HR HI).
  apply list_elem_of_fmap. exists (q, v). split; [done|].
  by apply dict_of_items_elem.
Qed.
End permutation_of_maps.

Lemma permutation_of_maps_total
    (initial_map final_map : gmap LineQubit.t GridQubit.t) (cqs : list LineQubit.t) :
  (∀ c, c ∈ cqs → is_Some (initial_map !! c) ∧ is_Some (final_map !! c)) →
  (∀ c, c ∈ cqs → ∃ c', c' ∈ cqs ∧ final_map !! c' = initial_map !! c) →
  ∃ r, permutation_of_maps initial_map final_map cqs = Ok r.
Proof.
  intros Hdef Himg.
  destruct (comprehension_total
    (λ cq, k ← dict_getitem final_map cq; v ← dict_getitem initial_map cq; mret (k, v))
    cqs) as [items HR].
  { apply Forall_forall. intros c Hc. destruct (Hdef c Hc) as [[q Hq] [k Hk]].
    exists (k, q). unfold dict_getitem. by rewrite Hk, Hq. }
  apply final_to_initial_items in HR.
  destruct (comprehension_total (dict_getitem initial_map) cqs) as [iqs HI].
  { apply Forall_forall. intros c Hc. destruct (Hdef c Hc) as [[q Hq] _].
    exists q. by apply dict_getitem_Ok. }
  apply (initial_qubits_Ok initial_map cqs) in HI.
  destruct (comprehension_total
    (λ q, v ← dict_getitem (dict_of_items items) q; index_method iqs v) iqs)
    as [perm HP].
  { apply Forall_forall. intros q [n Hn]%list_elem_of_lookup.
    destruct (Forall2_lookup_r _ _ _ _ _ HI Hn) as (c & Hc & Hcq).
    destruct (Himg c) as (c' & [n' Hn']%list_elem_of_lookup & Hc'q);
      [by eapply list_elem_of_lookup_2|].
    destruct (Forall2_lookup_l _ _ _ _ _ HR Hn') as ([k v'] & Hkv & Hk & _).
    simpl in Hk.
    assert (is_Some (dict_of_items items !! q)) as [v Hv].
    { apply dict_of_items_is_Some, list_elem_of_fmap. exists (k, v').
      split; [simpl; congruence|by eapply list_elem_of_lookup_2]. }
    destruct (final_to_initial_value _ _ _ _ _ _ _ HR HI Hv) as [j Hj].
    exists j. unfold dict_getitem, index_method. rewrite Hv. simpl. by rewrite Hj. }
  exists (iqs, perm). apply permutation_of_maps_Ok. exists items.
  split; [done|]. split; [done|].
  apply comprehension_Ok in HP. eapply Forall2_impl; [exact HP|].
  intros q j Hqj. apply py_bind_Ok in Hqj as (v & Hv & Hj).
  exists v. split; [by apply dict_getitem_Ok|].
  unfold index_method in Hj. destruct (list_index v iqs); [by injection Hj as ->|done].
Qed.

(** X9: the three assignments that lead to [final_permutation] succeed
    exactly when both maps have every circuit qubit as a key and every
    initial position of a circuit qubit is the final position of some
    circuit qubit; otherwise they raise [KeyError], and never the
    [ValueError] of [.index]. *)
Theorem permutation_of_maps_outcome
    (initial_map final_map : gmap LineQubit.t GridQubit.t) (cqs : list LineQubit.t) :
  ((∃ r, permutation_of_maps initial_map final_map cqs = Ok r) ↔
   (∀ c, c ∈ cqs → is_Some (initial_map !! c) ∧ is_Some (final_map !! c)) ∧
   (∀ c, c ∈ cqs → ∃ c', c' ∈ cqs ∧ final_map !! c' = initial_map !! c)) ∧
  (∀ e, permutation_of_maps initial_map final_map cqs = Raise e → e = KeyError).
Proof.
  split; [split|].
  - intros [[iqs perm] (items & HR & HI & HP)%permutation_of_maps_Ok]. split.
    + intros c [n Hn]%list_elem_of_lookup.
      destruct (Forall2_lookup_l _ _ _ _ _ HR Hn) as (kv & _ & Hk & Hv).
      split; by eexists.
    + intros c [n Hn]%list_elem_of_lookup.
      destruct (Forall2_lookup_l _ _ _ _ _ HI Hn) as (q & Hq & Hcq).
      destruct (Forall2_lookup_l _ _ _ _ _ HP Hq) as (j & _ & v & Hv & _).
      apply dict_of_items_elem, list_elem_of_lookup in Hv as [n' Hn'].
      destruct (Forall2_lookup_r _ _ _ _ _ HR Hn') as (c' & Hc' & Hk & _).
      exists c'. split; [by eapply list_elem_of_lookup_2|]. simpl in Hk. congruence.
  - intros [Hdef Himg]. by apply permutation_of_maps_total.
  - intros e. unfold permutation_of_maps, final_to_initial_map, final_permutation.
    destruct (comprehension _ cqs) as [items|e1] eqn:HR; simpl.
    2:{ intros [= <-]. apply comprehension_Raise in HR as (c & _ & Hc).
        unfold dict_getitem in Hc.
        destruct (final_map !! c); simpl in Hc; [|by injection Hc].
        destruct (initial_map !! c); simpl in Hc; [done|by injection Hc]. }
    destruct (initial_qubits initial_map cqs) as [iqs|e2] eqn:HI; simpl.
    2:{ intros [= <-]. apply comprehension_Raise in HI as (c & _ & Hc).
        unfold dict_getitem in Hc. destruct (initial_map !! c); [done|by injection Hc]. }
    destruct (comprehension _ iqs) as [perm|e3] eqn:HP; simpl; [done|].
    intros [= <-]. apply comprehension_Raise in HP as (q & _ & Hq).
    apply final_to_initial_items in HR. apply initial_qubits_Ok in HI.
    unfold dict_getitem in Hq.
    destruct (dict_of_items items !! q) as [v|] eqn:Hv; simpl in Hq; [|by injection Hq].
    destruct (final_to_initial_value _ _ _ _ _ _ _ HR HI Hv) as [j Hj].
    unfold index_method in Hq. by rewrite Hj in Hq.
Qed.

Lemma final_permutation_entry
    (initial_map final_map : gmap LineQubit.t GridQubit.t) (cqs : list LineQubit.t)
    (iqs : list GridQubit.t) (perm : list nat) (i j : nat) :
  (∀ c1 c2, c1 ∈ cqs → c2 ∈ cqs → initial_map !! c1 = initial_map !! c2 → c1 = c2) →
  permutation_of_maps initial_map final_map cqs = Ok (iqs, perm) →
  perm !! i = Some j →
  ∃ ci cj q, cqs !! i = Some ci ∧ cqs !! j = Some cj ∧
             initial_map !! ci = Some q ∧ final_map !! cj = Some q.
Proof.
  intros Hinj (items & HR & HI & HP)%permutation_of_maps_Ok Hij.
  destruct (Forall2_lookup_r _ _ _ _ _ HP Hij) as (q & Hq & v & Hv & Hj).
  destruct (Forall2_lookup_r _ _ _ _ _ HI Hq) as (ci & Hci & Hciq).
  apply list_index_Some in Hj.
  destruct (Forall2_lookup_r _ _ _ _ _ HI Hj) as (cj & Hcj & Hcjv).
  apply dict_of_items_elem, list_elem_of_lookup in Hv as [n Hn].
  destruct (Forall2_lookup_r _ _ _ _ _ HR Hn) as (c' & Hc' & Hk & Hv'). simpl in *.
  assert (cj = c') as ->.
  { apply Hinj; [by eapply list_elem_of_lookup_2..|congruence]. }
  by exists ci, c', q.
Qed.

(** X10: what the permutation says.  With both maps injective on the
    circuit qubits, [final_permutation[i] == j] exactly when the circuit
    qubit at position [j] ends on the device qubit where the circuit qubit
    at position [i] started. *)
Theorem final_permutation_meaning
    (initial_map final_map : gmap LineQubit.t GridQubit.t) (cqs : list LineQubit.t)
    (iqs : list GridQubit.t) (perm : list nat) (i j : nat) :
  NoDup cqs →
  (∀ c1 c2, c1 ∈ cqs → c2 ∈ cqs → initial_map !! c1 = initial_map !! c2 → c1 = c2) →
  (∀ c1 c2, c1 ∈ cqs → c2 ∈ cqs → final_map !! c1 = final_map !! c2 → c1 = c2) →
  permutation_of_maps initial_map final_map cqs = Ok (iqs, perm) →
  perm !! i = Some j ↔
  ∃ ci cj q, cqs !! i = Some ci ∧ cqs !! j = Some cj ∧
             initial_map !! ci = Some q ∧ final_map !! cj = Some q.
Proof.
  intros Hnd HinjI HinjF Hrun. split; [by eapply final_permutation_entry|].
  intros (ci & cj & q & Hci & Hcj & Hq & Hfq).
  pose proof Hrun as (items & HR & HI & HP)%permutation_of_maps_Ok.
  destruct (Forall2_lookup_l _ _ _ _ _ HI Hci) as (q' & Hq' & Hciq').
  destruct (Forall2_lookup_l _ _ _ _ _ HP Hq') as (j' & Hj' & _).
  destruct (final_permutation_entry _ _ _ _ _ _ _ HinjI Hrun Hj')
    as (ci' & cj' & q'' & Hci' & Hcj' & Hq'' & Hfq'').
  assert (ci' = ci) as -> by congruence.
  assert (cj' = cj) as ->.
  { apply HinjF; [by eapply list_elem_of_lookup_2..|congruence]. }
  by rewrite (NoDup_lookup _ j j' cj Hnd Hcj Hcj').
Qed.

(** X11: when every circuit qubit ends where it started, the permutation
    is the identity [[0, 1, ..., n-1]]. *)
Theorem final_permutation_identity
    (initial_map final_map : gmap LineQubit.t GridQubit.t) (cqs : list LineQubit.t) :
  NoDup cqs →
  (∀ c, c ∈ cqs → is_Some (initial_map !! c)) →
  (∀ c1 c2, c1 ∈ cqs → c2 ∈ cqs → initial_map !! c1 = initial_map !! c2 → c1 = c2) →
  (∀ c, c ∈ cqs → final_map !! c = initial_map !! c) →
  ∃ iqs, permutation_of_maps initial_map final_map cqs
         = Ok (iqs, seq 0 (length cqs)).
Proof.
  intros Hnd Hdef Hinj Hsame.
  destruct (permutation_of_maps_total initial_map final_map cqs) as [[iqs perm] Hrun].
  { intros c Hc. split; [by apply Hdef|]. rewrite Hsame by done. by apply Hdef. }
  { intros c Hc. exists c. split; [done|by apply Hsame]. }
  exists iqs. rewrite Hrun. do 2 f_equal.
  pose proof Hrun as (items & HR & HI & HP)%permutation_of_maps_Ok.
  assert (length perm = length cqs) as Hlen.
  { rewrite <- (Forall2_length _ _ _ HP). symmetry. by eapply Forall2_length. }
  apply list_eq. intros i. destruct (perm !! i) as [j|] eqn:Hi.
  - destruct (final_permutation_entry _ _ _ _ _ _ _ Hinj Hrun Hi)
      as (ci & cj & q & Hci & Hcj & Hq & Hfq).
    assert (cj = ci) as ->.
    { apply Hinj; [by eapply list_elem_of_lookup_2..|].
      rewrite <- Hsame by (by eapply list_elem_of_lookup_2). congruence. }
    rewrite (NoDup_lookup _ j i ci Hnd Hcj Hci).
    symmetry. apply lookup_seq_lt. by eapply lookup_lt_Some.
  - symmetry. apply lookup_seq_ge. apply lookup_ge_None in Hi. lia.
Qed.

Lemma permutation_of_maps_outcome_witness :
  ∃ r, permutation_of_maps sample_initial_map sample_final_map circuit_qubits = Ok r.
Proof.
  apply (proj1 (permutation_of_maps_outcome sample_initial_map sample_final_map
                  circuit_qubits)).
  split.
  - intros cq Hcq. each_circuit_qubit Hcq; vm_compute; split; eexists; reflexivity.
  - intros cq Hcq. each_circuit_qubit Hcq;
      apply Exists_exists; eapply bool_decide_unpack; vm_compute; exact I.
Defined.

Lemma final_permutation_meaning_witness :
  [1; 0; 2; 3; 4; 5; 6; 7; 8; 9] !! 0 = Some 1 ↔
  ∃ ci cj q, circuit_qubits !! 0 = Some ci ∧ circuit_qubits !! 1 = Some cj ∧
             sample_initial_map !! ci = Some q ∧ sample_final_map !! cj = Some q.
Proof.
  apply (final_permutation_meaning sample_initial_map sample_final_map circuit_qubits
           ((λ r, GridQubit.mk (Z.of_nat r) 0) <$> seq 0 10)
           [1; 0; 2; 3; 4; 5; 6; 7; 8; 9] 0 1).
  - apply circuit_qubits_NoDup.
  - intros c1 c2 H1 H2. each_circuit_qubit H1; each_circuit_qubit H2;
      vm_compute; first [reflexivity | intros [=]].
  - intros c1 c2 H1 H2. each_circuit_qubit H1; each_circuit_qubit H2;
      vm_compute; first [reflexivity | intros [=]].
  - vm_compute. reflexivity.
Defined.

Lemma final_permutation_identity_witness :
  ∃ iqs, permutation_of_maps sample_initial_map sample_initial_map circuit_qubits
         = Ok (iqs, seq 0 (length circuit_qubits)).
Proof.
  apply final_permutation_identity.
  - apply circuit_qubits_NoDup.
  - intros cq Hcq. each_circuit_qubit Hcq; vm_compute; eexists; reflexivity.
  - intros c1 c2 H1 H2. each_circuit_qubit H1; each_circuit_qubit H2;
      vm_compute; first [reflexivity | intros [=]].
  - reflexivity.
Defined.

(** ** The index of a qubit is its rank *)

Lemma index_to_qubit_smaller (device : gset GridQubit.t) (q x : GridQubit.t) (i : nat) :
  index_to_qubit device !! i = Some q →
  x ∈ take i (index_to_qubit device) ↔ x ∈ device ∧ GridQubit.lt x q.
Proof.
  intros Hi. rewrite elem_of_take. split.
  - intros (k & Hk & Hlt). split.
    + apply index_to_qubit_elem. by eapply list_elem_of_lookup_2.
    + apply GridQubit_lt_le_ne. split.
      * by apply (StronglySorted_lookup_lt _ _ k i x q (index_to_qubit_sorted device)).
      * intros ->.
        pose proof (NoDup_lookup _ k i q (index_to_qubit_NoDup device) Hk Hi). lia.
  - intros [Hx Hlt].
    apply index_to_qubit_elem, list_elem_of_lookup in Hx as [k Hk].
    exists k. split; [done|].
    destruct (decide (k < i)) as [|Hge]; [done|exfalso].
    destruct (decide (k = i)) as [->|Hne].
    + rewrite Hi in Hk. injection Hk as ->.
      apply GridQubit_lt_le_ne in Hlt as [_ Hne]. done.
    + apply (GridQubit_lt_not_le _ _ Hlt).
      apply (StronglySorted_lookup_lt _ _ i k q x (index_to_qubit_sorted device));
        [done|done|lia].
Qed.

(** X13: the secret index of a device qubit is its rank: the number of
    device qubits that are smaller in the [(row, col)] order.  A qubit that
    is not on the device has no index ([KeyError]). *)
Theorem qubit_to_index_rank (device : gset GridQubit.t) (q : GridQubit.t) :
  (q ∈ device →
   dict_getitem (qubit_to_index device) q
   = Ok (size (filter (λ p, GridQubit.lt p q) device))) ∧
  (q ∉ device → dict_getitem (qubit_to_index device) q = Raise KeyError).
Proof.
  unfold dict_getitem. split.
  - intros Hq. apply index_to_qubit_elem, list_elem_of_lookup in Hq as [i Hi].
    rewrite (proj2 (qubit_to_index_lookup device q i) Hi). f_equal.
    assert (filter (λ p, GridQubit.lt p q) device
            = list_to_set (take i (index_to_qubit device))) as ->.
    { apply set_eq. intros x.
      rewrite elem_of_filter, elem_of_list_to_set, (index_to_qubit_smaller _ q x i Hi).
      tauto. }
    rewrite size_list_to_set.
    + rewrite length_take. apply lookup_lt_Some in Hi. lia.
    + apply (sublist_NoDup _ (index_to_qubit device));
        [apply index_to_qubit_NoDup|apply sublist_take].
  - intros Hq. destruct (qubit_to_index device !! q) as [i|] eqn:Hi; [|done].
    exfalso. apply Hq, index_to_qubit_elem.
    apply qubit_to_index_lookup in Hi. by eapply list_elem_of_lookup_2.
Qed.

Lemma qubit_to_index_rank_witness :
  dict_getitem (qubit_to_index sample_device) (GridQubit.mk 4 3)
  = Ok (size (filter (λ p, GridQubit.lt p (GridQubit.mk 4 3)) sample_device)) ∧
  dict_getitem (qubit_to_index sample_device) (GridQubit.mk 0 0) = Raise KeyError.
Proof.
  split.
  - apply (proj1 (qubit_to_index_rank sample_device (GridQubit.mk 4 3))).
    vm_compute. reflexivity.
  - apply (proj2 (qubit_to_index_rank sample_device (GridQubit.mk 0 0))).
    vm_compute. intros Hin. discriminate Hin.
Defined.

(** ** Decoding looks at indices only *)

Lemma tk_to_i_index (n n' : Node.t) :
  Node.index n = Node.index n' → tk_to_i n = tk_to_i n'.
Proof. unfold tk_to_i. by intros ->. Qed.

(** X15: decoding a qubit map never looks at register names: maps whose
    items have the same index tuples decode alike.  So two tket qubits with
    the same index collide, and the later item of the map is the one the
    decoded map keeps. *)
Theorem decode_map_registers (i2q : list GridQubit.t) :
  (∀ m m', Forall2 (λ n n', Node.index n.1 = Node.index n'.1 ∧
                            Node.index n.2 = Node.index n'.2) m m' →
           decode_map i2q m = decode_map i2q m') ∧
  (∀ m1 m2 n k j d,
     decode_map i2q (m1 ++ n :: m2) = Ok d →
     Node.index n.1 = [k] → Node.index n.2 = [j] →
     Forall (λ n', Node.index n'.1 ≠ [k]) m2 →
     d !! LineQubit.mk k = i2q !! j).
Proof.
  split.
  - intros m m' HF. unfold decode_map. f_equal.
    induction HF as [|n n' m m' [H1 H2] _ IH]; simpl; [done|].
    by rewrite (tk_to_i_index _ _ H1), (tk_to_i_index _ _ H2), IH.
  - intros m1 m2 n k j d (items & HF & ->)%decode_map_Ok_items Hk Hj Hm2.
    apply Forall2_app_inv_l in HF as (items1 & items' & HF1 & HF' & ->).
    apply Forall2_cons_inv_l in HF' as ([[k'] q] & items2 & [Hk' Hq] & HF2 & ->).
    simpl in *. destruct Hq as (j' & Hj' & Hq).
    assert (k' = k) as -> by congruence. assert (j' = j) as -> by congruence.
    rewrite Hq. apply dict_of_items_last.
    intros ([[k2] q2] & [= <-] & [i Hi]%list_elem_of_lookup)%list_elem_of_fmap.
    destruct (Forall2_lookup_r _ _ _ _ _ HF2 Hi) as (n' & Hn' & Hk2 & _).
    rewrite Forall_forall in Hm2. simpl in Hk2.
    by apply (Hm2 n'); [eapply list_elem_of_lookup_2|].
Qed.

Lemma decode_map_registers_witness :
  decode_map (index_to_qubit sample_device)
    [ (Node.mk "q" [10], Node.mk "node" [2]);
      (Node.mk "ancilla" [10], Node.mk "node" [4]) ]
  = decode_map (index_to_qubit sample_device)
    [ (Node.mk "q" [10], Node.mk "n" [2]); (Node.mk "q" [10], Node.mk "n" [4]) ].
Proof.
  apply (proj1 (decode_map_registers (index_to_qubit sample_device))).
  repeat constructor.
Defined.
